(** * Verification of [src/utils/render.js] (Ready Set Roll 5e)

    A shallow embedding of the chat-card field renderers
    [renderMultiRoll] and [renderDamageRoll], and the properties of the
    multi-roll decomposition and of the damage label placement.

    JavaScript objects that the renderers share with their caller (the
    die results of the rolled d20 group) live in an explicit store and are
    referred to by reference, so that the in-place update of their
    [active] flag is visible to every holder of the reference. *)

From Stdlib Require Import ZArith Lia.
From stdpp Require Import base option list strings functions gmap.

Local Open Scope Z_scope.

(** ** JavaScript values and control flow *)

(** The only exception the renderers can raise themselves: a property
    access or a method call on [undefined]. *)
Inductive JSError : Type :=
  | TypeError.

(** How the evaluation of a function body ends. *)
Inductive completion (A : Type) : Type :=
  | Normal (a : A)
  | Throw (e : JSError).
Arguments Normal {A} a.
Arguments Throw {A} e.

(** A setting value as the settings accessor hands it out: a number or a
    string (the placement comparisons of [renderDamageRoll] tell the two
    apart). *)
Inductive JSValue : Type :=
  | JNum (n : Z)
  | JStr (s : string).

#[global] Instance JSValue_eq_dec : EqDecision JSValue.
Proof. solve_decision. Defined.

(** Truthiness of an optional boolean property ([undefined] is falsy). *)
Definition truthy (b : option bool) : bool := default false b.

(** Truthiness of a string ([undefined] and the empty string are falsy). *)
Definition truthy_str (s : option string) : bool :=
  match s with
  | Some s => negb (String.eqb s "")
  | None => false
  end.

(** Truthiness of an array: every object is truthy, the empty array too. *)
Definition truthy_array {A : Type} (a : list A) : bool := true.

(** [a ?? b] *)
Definition nullish {A : Type} (a : option A) (b : A) : A := default b a.

(** ** The dice data model *)

(** One rolled face, as the dice library stores it: the optional flags
    are absent ([undefined]) unless a modifier set them. *)
Record DieResult : Type := mkDieResult {
  result : Z;
  active : option bool;
  discarded : option bool;
  rerolled : option bool
}.

#[global] Instance DieResult_eq_dec : EqDecision DieResult.
Proof. solve_decision. Defined.

(** References to die-result objects, and the store that holds them. *)
Abbreviation ref := nat (only parsing).
Abbreviation store := (ref -> DieResult) (only parsing).

Record Die : Type := mkDie {
  number : Z;
  faces : Z;
  results : list ref
}.

Inductive RollTerm : Type :=
  | DieTerm (d : Die)
  | OperatorTerm (op : string)
  | NumericTerm (n : Z).

Record RollOptions : Type := mkRollOptions {
  halflingLucky : option bool
}.

Record Roll : Type := mkRoll {
  terms : list RollTerm;
  formula : string;
  total : Z;
  isCritical : option bool;
  options : RollOptions
}.

(** [roll.dice]: the die terms of a roll, in order. *)
Definition dice (r : Roll) : list Die :=
  omap (fun t => match t with DieTerm d => Some d | _ => None end) (terms r).

(** Modelled from the spec: the total of a die group, which the dice
    library of the host computes and this repository only reads. It is
    the sum of the face values of the results whose [active] flag is set
    ("must exclude any result where active is false"; the code comment:
    "Die terms must have active results or the base roll total of the
    generated roll is 0"). *)
Definition Die_total (σ : store) (rs : list ref) : Z :=
  foldr (fun l acc => if truthy (active (σ l)) then result (σ l) + acc else acc) 0 rs.

Inductive CritType : Type :=
  | CRIT_NONE
  | CRIT_SUCCESS
  | CRIT_FAILURE.

(** Modelled from the spec: the dice library of the host application
    ([Roll], [Die]), which this repository calls and does not define.
    [evaluateTotal σ ts] is the total of [Roll.fromTerms(ts)], computed
    when the roll is built; a roll of one die group totals that group,
    and a roll without terms totals 0 ("compute its total (0/absent if no
    bonus terms)"). The formula text and the tooltip markup are left
    open. *)
Class DiceLibrary : Type := {
  getFormula : list RollTerm -> string;
  evaluateTotal : store -> list RollTerm -> Z;
  getTooltip : store -> Roll -> string;
  evaluateTotal_die :
    forall σ d, evaluateTotal σ [DieTerm d] = Die_total σ (results d);
  evaluateTotal_nil : forall σ, evaluateTotal σ [] = 0
}.

(** The critical classifier of [./roll.js] ([RollUtility]), a parameter
    of the renderers: no property below depends on what it answers. *)
Class RollUtility : Type := {
  getCritTypeForDie : store -> Die -> CritType;
  getCritTypeForRoll : store -> Roll -> CritType
}.

(** The settings that the renderers read through [SettingsUtility]. *)
Record Settings : Type := mkSettings {
  D20_ICONS_ENABLED : bool;
  PLACEMENT_DAMAGE_TITLE : JSValue;
  PLACEMENT_DAMAGE_TYPE : JSValue;
  PLACEMENT_DAMAGE_CONTEXT : JSValue;
  CONTEXT_REPLACE_TITLE : bool;
  CONTEXT_REPLACE_DAMAGE : bool
}.

(** ** Effects: a store threaded through code that may throw *)

Definition Eff (A : Type) : Type := store -> store * completion A.

Definition ret {A : Type} (a : A) : Eff A := fun σ => (σ, Normal a).
Definition throw {A : Type} (e : JSError) : Eff A := fun σ => (σ, Throw e).
Definition bind {A B : Type} (c : Eff A) (k : A -> Eff B) : Eff B :=
  fun σ =>
    match c σ with
    | (σ', Normal a) => k a σ'
    | (σ', Throw e) => (σ', Throw e)
    end.
Definition get : Eff store := fun σ => (σ, Normal σ).
Definition modify (f : store -> store) : Eff unit := fun σ => (f σ, Normal tt).

Declare Scope eff_scope.
Delimit Scope eff_scope with eff.
Notation "x <- c ;; k" := (bind c (fun x => k))
  (at level 100, c at next level, right associativity) : eff_scope.

(** ** The multi-roll processor *)

Record MultiRollEntry : Type := mkEntry {
  e_roll : Roll;
  e_total : Z;
  ignored : option bool;
  isCrit : option bool;
  critType : CritType;
  d20Result : option Z
}.

Record MultiRollData : Type := mkMultiRollData {
  mr_id : string;
  mr_roll : option Roll;
  mr_title : option string
}.

(** The data handed to the multi-roll template. *)
Record MultiRollProps : Type := mkMultiRollProps {
  p_id : string;
  p_title : option string;
  p_formula : string;
  entries : list MultiRollEntry;
  tooltips : list string;
  bonusTooltip : option string
}.

(** [r.active = !r.rerolled ?? true]: the negation binds tighter than
    [??] and is never nullish. *)
Definition setActive (r : DieResult) : DieResult :=
  {| result := result r;
     active := Some (nullish (Some (negb (truthy (rerolled r)))) true);
     discarded := discarded r;
     rerolled := rerolled r |}.

(** [tmpResults.forEach(r => { r.active = ... })]. An element read past
    the end of the results is [undefined] ([None]), and the assignment
    throws on it, after the elements before it were updated. The
    references visited are returned: they are the array the isolated die
    is built from. *)
Fixpoint forEach_setActive (tmpResults : list (option ref)) : Eff (list ref) :=
  match tmpResults with
  | [] => ret []
  | None :: _ => throw TypeError
  | Some l :: rest =>
      (_ <- modify (alter setActive l) ;;
       ls <- forEach_setActive rest ;;
       ret (l :: ls))%eff
  end.

(** The contributing die results of an entry: the results of the dice
    of its isolated roll. *)
Definition contributing (e : MultiRollEntry) : list ref :=
  concat (map results (dice (e_roll e))).

Section MultiRoll.
Context {lib : DiceLibrary} {util : RollUtility}.
Variable settings : Settings.

(** [Roll.fromTerms(terms)] *)
Definition Roll_fromTerms (σ : store) (ts : list RollTerm) : Roll :=
  {| terms := ts;
     formula := getFormula ts;
     total := evaluateTotal σ ts;
     isCritical := None;
     options := {| halflingLucky := None |} |}.

(** One pass through the body of the [for] loop at index [i]: the
    index as the body leaves it (the loop header increments it once
    more) and the entry pushed. *)
Definition iteration (roll : Roll) (d20Rolls : Die) (bonusRoll : option Roll)
    (i : nat) : Eff (nat * MultiRollEntry) :=
  (σ <- get ;;
   let tmpResults := [results d20Rolls !! i] in
   p <-
      (if truthy (halflingLucky (options roll)) then
         match results d20Rolls !! i with
         | None => throw TypeError
         | Some l =>
             if result (σ l) =? 1
             then ret (S i, tmpResults ++ [results d20Rolls !! S i])
             else ret (i, tmpResults)
         end
       else ret (i, tmpResults)) ;;
   let '(i, tmpResults) := p in
   rs <- forEach_setActive tmpResults ;;
   σ <- get ;;
   let baseTerm := {| number := 1; faces := 20; results := rs |} in
   let baseRoll := Roll_fromTerms σ [DieTerm baseTerm] in
   d20 <-
      (if D20_ICONS_ENABLED settings then
         match results d20Rolls !! i with
         | None => throw TypeError
         | Some l => ret (Some (result (σ l)))
         end
       else ret None) ;;
   ret (i,
        {| e_roll := baseRoll;
           e_total := total baseRoll
                      + match bonusRoll with Some b => total b | None => 0 end;
           ignored := if existsb (fun l => truthy (discarded (σ l))) rs
                      then Some true else None;
           isCrit := isCritical roll;
           critType := getCritTypeForDie σ baseTerm;
           d20Result := d20 |}))%eff.

(** [for (let i = 0; i < d20Rolls.results.length; i++) { ... }], from
    index [i] on, with the entries pushed so far. [None] only when the
    fuel runs out, which [loop_spec] excludes. *)
Fixpoint loop (roll : Roll) (d20Rolls : Die) (bonusRoll : option Roll)
    (fuel : nat) (i : nat) (acc : list MultiRollEntry) (σ : store)
    : option (store * completion (list MultiRollEntry)) :=
  match fuel with
  | O => None
  | S fuel =>
      if (i <? length (results d20Rolls))%nat then
        match iteration roll d20Rolls bonusRoll i σ with
        | (σ', Throw e) => Some (σ', Throw e)
        | (σ', Normal (i', e)) =>
            loop roll d20Rolls bonusRoll fuel (S i') (acc ++ [e]) σ'
        end
      else Some (σ, Normal acc)
  end.

(** [roll.terms.slice(1)] and the roll made of it. The conditional
    tests the array itself. *)
Definition bonusTerms (roll : Roll) : list RollTerm := drop 1 (terms roll).

Definition bonusRoll (σ : store) (roll : Roll) : option Roll :=
  if truthy_array (bonusTerms roll)
  then Some (Roll_fromTerms σ (bonusTerms roll))
  else None.

Definition renderMultiRoll (renderData : MultiRollData) (σ : store)
    : option (store * completion MultiRollProps) :=
  match mr_roll renderData with
  | None => Some (σ, Throw TypeError)
  | Some roll =>
      let bonus := bonusRoll σ roll in
      match List.find (fun d => faces d =? 20) (dice roll) with
      | None => Some (σ, Throw TypeError)
      | Some d20Rolls =>
          match loop roll d20Rolls bonus (S (length (results d20Rolls))) 0 [] σ with
          | None => None
          | Some (σ', Throw e) => Some (σ', Throw e)
          | Some (σ', Normal es) =>
              Some (σ', Normal
                {| p_id := mr_id renderData;
                   p_title := mr_title renderData;
                   p_formula := formula roll;
                   entries := es;
                   tooltips := map (fun e => getTooltip σ' (e_roll e)) es;
                   bonusTooltip := getTooltip σ' <$> bonus |})
          end
      end
  end.

End MultiRoll.

(** ** The damage label placement engine *)

(** What [renderDamageRoll] reads from its surroundings: the vocabulary
    of the game system ([CONFIG.DND5E]), the localisation of the module
    ([CoreUtility.localize]) and the constants of [../module/const.js] and
    [./roll.js]. [StringToNumber] is the conversion that [==] applies to
    a string compared with a number ([None] for a string that is not a
    number). *)
Class Environment : Type := {
  MODULE_SHORT : string;
  ROLL_TYPE_DAMAGE : string;
  ROLL_TYPE_OTHER : string;
  localize : string -> string;
  healingTypes : gmap string string;
  damageTypes : gmap string string;
  weaponProperties_ver : string;
  StringToNumber : string -> option Z
}.

(** [a === b] on numbers and strings. *)
Definition strict_eq (a b : JSValue) : bool := bool_decide (a = b).

(** [a == b] on numbers and strings. *)
Definition loose_eq {env : Environment} (a b : JSValue) : bool :=
  match a, b with
  | JNum x, JNum y => bool_decide (x = y)
  | JStr s, JStr t => bool_decide (s = t)
  | JNum x, JStr s => bool_decide (StringToNumber s = Some x)
  | JStr s, JNum x => bool_decide (StringToNumber s = Some x)
  end.

(** [a.join(sep)] on an array of strings. *)
Fixpoint join (sep : string) (a : list string) : string :=
  match a with
  | [] => ""
  | x :: rest =>
      match rest with
      | [] => x
      | _ :: _ => x +:+ sep +:+ join sep rest
      end
  end.

(** The object [{ 1: [], 2: [], 3: [] }]: one fragment list per own
    property. *)
Inductive Slot : Type :=
  | Slot1
  | Slot2
  | Slot3.

#[global] Instance Slot_eq_dec : EqDecision Slot.
Proof. solve_decision. Defined.

Record Labels (A : Type) : Type := mkLabels {
  label1 : A;
  label2 : A;
  label3 : A
}.
Arguments mkLabels {A} _ _ _.
Arguments label1 {A} _.
Arguments label2 {A} _.
Arguments label3 {A} _.

Definition getLabel {A : Type} (k : Slot) (L : Labels A) : A :=
  match k with
  | Slot1 => label1 L
  | Slot2 => label2 L
  | Slot3 => label3 L
  end.

Definition setLabel {A : Type} (k : Slot) (v : A) (L : Labels A) : Labels A :=
  match k with
  | Slot1 => mkLabels v (label2 L) (label3 L)
  | Slot2 => mkLabels (label1 L) v (label3 L)
  | Slot3 => mkLabels (label1 L) (label2 L) v
  end.

(** The property of [labels] that a placement value selects: a number is
    converted to its decimal text, so [1] and ["1"] name the same
    property; any other key finds no fragment list. *)
Definition slotOf (p : JSValue) : option Slot :=
  match p with
  | JNum n =>
      if n =? 1 then Some Slot1
      else if n =? 2 then Some Slot2
      else if n =? 3 then Some Slot3
      else None
  | JStr s =>
      if String.eqb s "1" then Some Slot1
      else if String.eqb s "2" then Some Slot2
      else if String.eqb s "3" then Some Slot3
      else None
  end.

(** [labels[p].push(x)]: a [TypeError] when [labels[p]] is not one of
    the three arrays. *)
Definition push (p : JSValue) (x : string) (L : Labels (list string))
    : completion (Labels (list string)) :=
  match slotOf p with
  | None => Throw TypeError
  | Some k => Normal (setLabel k (getLabel k L ++ [x]) L)
  end.

(** [const titleTmp = labels[p][0];
     labels[p][0] = (titleTmp ? titleTmp + " " : "") + `(${context})`] *)
Definition mergeContext (p : JSValue) (context : string) (L : Labels (list string))
    : completion (Labels (list string)) :=
  match slotOf p with
  | None => Throw TypeError
  | Some k =>
      let titleTmp := head (getLabel k L) in
      let merged :=
        (if truthy_str titleTmp then default "" titleTmp +:+ " " else "")
        +:+ "(" +:+ context +:+ ")" in
      Normal (setLabel k (merged :: tail (getLabel k L)) L)
  end.

Definition andThen {A B : Type} (c : completion A) (k : A -> completion B)
    : completion B :=
  match c with
  | Normal a => k a
  | Throw e => Throw e
  end.

Record DamageData : Type := mkDamageData {
  dd_id : string;
  damageType : string;
  baseRoll : option Roll;
  critRoll : option Roll;
  context : option string;
  versatile : bool
}.

Record RollSummary : Type := mkRollSummary {
  s_roll : Roll;
  s_total : Z;
  s_critType : CritType
}.

(** The data handed to the damage template. *)
Record DamageProps : Type := mkDamageProps {
  dp_id : string;
  damageRollType : string;
  dp_tooltips : list string;
  base : option RollSummary;
  crit : option RollSummary;
  crittext : string;
  damagetop : string;
  damagemid : string;
  damagebottom : string;
  dp_formula : string;
  dp_damageType : string
}.

Section DamageRoll.
Context {lib : DiceLibrary} {util : RollUtility} {env : Environment}.
Variable settings : Settings.

Definition chatKey (rollType : string) : string :=
  MODULE_SHORT +:+ ".chat." +:+ rollType.

Definition damagePrefix (damageType : string) (versatile : bool) : string :=
  if truthy_str (healingTypes !! damageType) then
    "" +:+ default "" (healingTypes !! damageType)
  else if truthy_str (damageTypes !! damageType) then
    ("" +:+ localize (chatKey ROLL_TYPE_DAMAGE))
    +:+ (if versatile then " [" +:+ weaponProperties_ver +:+ "]" else "")
  else if bool_decide (damageType = ROLL_TYPE_OTHER) then
    "" +:+ localize (chatKey ROLL_TYPE_OTHER)
  else "".

(** [CONFIG.DND5E.damageTypes[damageType] ?? ""] *)
Definition damageString (damageType : string) : string :=
  nullish (damageTypes !! damageType) "".

(** The fragment lists of the three slots, before they are joined. *)
Definition placeLabels (damageType : string) (versatile : bool)
    (context : option string) : completion (Labels (list string)) :=
  let titlePlacement := PLACEMENT_DAMAGE_TITLE settings in
  let typePlacement := PLACEMENT_DAMAGE_TYPE settings in
  let contextPlacement := PLACEMENT_DAMAGE_CONTEXT settings in
  let replaceTitle := CONTEXT_REPLACE_TITLE settings in
  let replaceDamage := CONTEXT_REPLACE_DAMAGE settings in
  let labels := mkLabels [] [] [] in
  let prefix := damagePrefix damageType versatile in
  andThen
    (if negb (strict_eq titlePlacement (JNum 0))
        && negb (replaceTitle && truthy_str context
                 && loose_eq titlePlacement contextPlacement)
     then andThen (push titlePlacement prefix labels) (fun L => Normal (L, true))
     else Normal (labels, false))
    (fun '(labels, pushedTitle) =>
  andThen
    (if truthy_str context then
       if strict_eq contextPlacement titlePlacement && pushedTitle
       then mergeContext contextPlacement (default "" context) labels
       else if negb (strict_eq contextPlacement (JStr "0"))
       then push contextPlacement (default "" context) labels
       else Normal labels
     else Normal labels)
    (fun labels =>
  if negb (strict_eq typePlacement (JStr "0"))
     && (0 <? Z.of_nat (String.length (damageString damageType)))
     && negb (replaceDamage && truthy_str context
              && loose_eq typePlacement contextPlacement)
  then push typePlacement (damageString damageType) labels
  else Normal labels)).

(** [for (let p in labels) labels[p] = labels[p].join(" - ")] *)
Definition joinLabels (L : Labels (list string)) : Labels string :=
  mkLabels (join " - " (label1 L)) (join " - " (label2 L)) (join " - " (label3 L)).

Definition summary (σ : store) (r : Roll) : RollSummary :=
  {| s_roll := r; s_total := total r; s_critType := getCritTypeForRoll σ r |}.

(** [renderDamageRoll]: [Normal None] is the bare [return]. The store
    is only read (by the tooltips and the classifier). *)
Definition renderDamageRoll (renderData : DamageData) (σ : store)
    : completion (option DamageProps) :=
  let baseRoll := baseRoll renderData in
  let critRoll := critRoll renderData in
  if bool_decide ((length ∘ terms) <$> baseRoll = Some 0%nat)
     && bool_decide ((length ∘ terms) <$> critRoll = Some 0%nat)
  then Normal None
  else
    andThen (placeLabels (damageType renderData) (versatile renderData)
               (context renderData))
      (fun labels =>
    let labels := joinLabels labels in
    let tooltips :=
      omap (fun t => if truthy_str t then t else None)
        [getTooltip σ <$> baseRoll; getTooltip σ <$> critRoll] in
    andThen
      (match baseRoll with
       | Some b => Normal (formula b)
       | None =>
           match critRoll with
           | Some c => Normal (formula c)
           | None => Throw TypeError
           end
       end)
      (fun f =>
    Normal (Some
      {| dp_id := dd_id renderData;
         damageRollType := ROLL_TYPE_DAMAGE;
         dp_tooltips := tooltips;
         base := summary σ <$> baseRoll;
         crit := summary σ <$> critRoll;
         crittext := localize (chatKey "crit");
         damagetop := label1 labels;
         damagemid := label2 labels;
         damagebottom := label3 labels;
         dp_formula := f;
         dp_damageType := damageType renderData |}))).

End DamageRoll.

(** ** The attack field *)




Section AttackRoll.
Context {lib : DiceLibrary} {util : RollUtility} {env : Environment}.
Variable settings : Settings.
(** [ROLL_TYPE.ATTACK] of [./roll.js]. *)
Variable ROLL_TYPE_ATTACK : string.



End AttackRoll.

(** ** A concrete host, for running the renderers on examples *)

Module Sample.

(** Terms joined by [+] and [-], evaluated from left to right; the
    total of no terms is [acc], 0 at the start. *)
Fixpoint evalFrom (σ : store) (acc : Z) (neg : bool) (ts : list RollTerm) : Z :=
  match ts with
  | [] => acc
  | OperatorTerm op :: rest =>
      evalFrom σ acc (if String.eqb op "-" then negb neg else neg) rest
  | DieTerm d :: rest =>
      evalFrom σ (acc + (if neg then - Die_total σ (results d)
                         else Die_total σ (results d))) false rest
  | NumericTerm n :: rest =>
      evalFrom σ (acc + (if neg then - n else n)) false rest
  end.

#[global] Instance diceLibrary : DiceLibrary :=
  {| getFormula := fun ts => "formula";
     evaluateTotal := fun σ ts => evalFrom σ 0 false ts;
     getTooltip := fun σ r => "tooltip";
     evaluateTotal_die := fun σ d => eq_refl;
     evaluateTotal_nil := fun σ => eq_refl |}.

(** Natural 20 and natural 1 of the last result of the die. *)
Definition critOfDie (σ : store) (d : Die) : CritType :=
  match last (results d) with
  | Some l =>
      if result (σ l) =? 20 then CRIT_SUCCESS
      else if result (σ l) =? 1 then CRIT_FAILURE
      else CRIT_NONE
  | None => CRIT_NONE
  end.

#[global] Instance rollUtility : RollUtility :=
  {| getCritTypeForDie := critOfDie;
     getCritTypeForRoll := fun σ r => CRIT_NONE |}.

Definition messages (key : string) : string :=
  if String.eqb key "rsr5e.chat.damage" then "Damage"
  else if String.eqb key "rsr5e.chat.other" then "Other"
  else if String.eqb key "rsr5e.chat.crit" then "Critical"
  else key.

(** The conversion on the texts of the placement choices. *)
Definition digit (s : string) : option Z :=
  if String.eqb s "" then Some 0
  else if String.eqb s "0" then Some 0
  else if String.eqb s "1" then Some 1
  else if String.eqb s "2" then Some 2
  else if String.eqb s "3" then Some 3
  else None.

#[global] Instance environment : Environment :=
  {| MODULE_SHORT := "rsr5e";
     ROLL_TYPE_DAMAGE := "damage";
     ROLL_TYPE_OTHER := "other";
     localize := messages;
     healingTypes := {[ "healing" := "Healing" ]};
     damageTypes := {[ "fire" := "Fire"; "cold" := "Cold" ]};
     weaponProperties_ver := "Versatile";
     StringToNumber := digit |}.

(** A store from the list of its objects; references past the end read
    a blank result. *)
Definition storeOf (objs : list DieResult) : store :=
  fun l => default (mkDieResult 0 None None None) (objs !! l).

Definition plain (n : Z) : DieResult := mkDieResult n (Some true) None None.
Definition dropped (n : Z) : DieResult := mkDieResult n (Some false) (Some true) None.

Definition d20 (rs : list ref) : Die := mkDie (Z.of_nat (length rs)) 20 rs.

Definition check (ts : list RollTerm) (lucky : bool) : MultiRollData :=
  mkMultiRollData "id"
    (Some (mkRoll ts "formula" 0 (Some false) (mkRollOptions (Some lucky))))
    (Some "title").

Definition numericSettings (icons : bool) (title type context : Z)
    (replaceTitle replaceDamage : bool) : Settings :=
  mkSettings icons (JNum title) (JNum type) (JNum context) replaceTitle replaceDamage.

Definition damageRoll (n : Z) : Roll :=
  mkRoll [NumericTerm n] "formula" n None (mkRollOptions None).

Definition iconSettings : Settings := numericSettings true 1 2 3 false false.

(** [2d20kh + 5]: the advantage dropped the first die. *)
Definition advantage : MultiRollData :=
  check [DieTerm (d20 [0; 1]%nat); OperatorTerm "+"; NumericTerm 5] false.
Definition advantageStore : store := storeOf [dropped 5; plain 17].

(** A bare [1d20], no bonus. *)
Definition bare : MultiRollData := check [DieTerm (d20 [0]%nat)] false.
Definition bareStore : store := storeOf [plain 12].

(** Lucky rolls: a 1 and its companion; two 1s; a 1 left alone at the
    end; two 1s and a 5. *)
Definition luckyPair : MultiRollData := check [DieTerm (d20 [0; 1]%nat)] true.
Definition luckyPairStore : store := storeOf [plain 1; plain 15].
Definition doubleOneStore : store := storeOf [plain 1; plain 1].
Definition luckyThree : MultiRollData := check [DieTerm (d20 [0; 1; 2]%nat)] true.
Definition loneOneStore : store := storeOf [plain 1; plain 15; plain 1].
Definition chainStore : store := storeOf [plain 1; plain 1; plain 5].

(** Fire damage with the context "Sneak Attack", and the same for a
    damage type that the game system does not know. *)
Definition sneakAttack (damageType : string) (base crit : option Roll) : DamageData :=
  mkDamageData "id" damageType base crit (Some "Sneak Attack") false.
Definition fireBolt (base crit : option Roll) : DamageData :=
  mkDamageData "id" "fire" base crit None false.

(** A lucky 1 that the dice library flagged as rerolled and put out of
    the total, with its companion. *)
Definition rerolledOneStore : store :=
  storeOf [mkDieResult 1 (Some false) None (Some true); plain 15].


End Sample.

(** ** Vocabulary of the statements *)

(** The face values of a list of references. *)
Definition facesOf (σ : store) (rs : list ref) : list Z :=
  map (fun l => result (σ l)) rs.

(** [touches rs σ σ']: from [σ] to [σ'] every object is left as it was
    or, if it is one of [rs], had its [active] flag overwritten. *)
Definition touches (rs : list ref) (σ σ' : store) : Prop :=
  forall l, σ' l = σ l \/ (l ∈ rs /\ σ' l = setActive (σ l)).

(** What an entry records, read against the store [σ] that holds its
    contributing results: [b] is the bonus total of the call. *)
Definition entry_ok (icons lucky : bool) (b : Z) (σ : store) (e : MultiRollEntry)
    : Prop :=
  e_total e = Die_total σ (contributing e) + b
  /\ (forall l, l ∈ contributing e -> σ l = setActive (σ l))
  /\ ((exists l0, contributing e = [l0]
                 /\ lucky && (result (σ l0) =? 1) = false)
      \/ (exists l0 l1, contributing e = [l0; l1]
                        /\ lucky = true /\ result (σ l0) = 1))
  /\ d20Result e
     = (if icons then (fun l => result (σ l)) <$> last (contributing e) else None)
  /\ ignored e
     = (if existsb (fun l => truthy (discarded (σ l))) (contributing e)
        then Some true else None).

(** The walk of the lucky reroll over the face values alone: a 1 takes
    the next face with it; [dangling] tells whether a 1 is left with no
    face to take. *)
Fixpoint dangling (fs : list Z) : bool :=
  match fs with
  | [] => false
  | f :: rest =>
      if f =? 1 then
        match rest with
        | [] => true
        | _ :: rest' => dangling rest'
        end
      else dangling rest
  end.

(** The number of consecutive 1s at the start, and at the end. *)
Fixpoint leadingOnes (fs : list Z) : nat :=
  match fs with
  | [] => 0
  | f :: rest => if f =? 1 then S (leadingOnes rest) else 0
  end.

Definition trailingOnes (fs : list Z) : nat := leadingOnes (reverse fs).

(** The sum of the face values of the results of [rs] whose [active]
    flag is set in [σ]. *)
Definition activeOf (σ : store) (rs : list ref) : list ref :=
  List.filter (fun l => truthy (active (σ l))) rs.

Definition sumZ (zs : list Z) : Z := foldr Z.add 0 zs.

(** The total of the bonus roll of a call: the roll of the terms after
    the first, built before the walk starts. *)
Definition bonusTotal {lib : DiceLibrary} (σ : store) (roll : Roll) : Z :=
  match bonusRoll σ roll with
  | Some r => total r
  | None => 0
  end.

(** The merged fragment as the specification words it. *)
Definition mergedForm (title context : string) : string :=
  title +:+ " (" +:+ context +:+ ")".


(** The number that names a slot. *)
Definition slotNumber (k : Slot) : Z :=
  match k with
  | Slot1 => 1
  | Slot2 => 2
  | Slot3 => 3
  end.

(** All the fragments of the three slots, slot after slot. *)
Definition fragments (L : Labels (list string)) : list string :=
  label1 L ++ label2 L ++ label3 L.

(** The fragment that the merge branch of [renderDamageRoll] writes:
    [(titleTmp ? titleTmp + " " : "") + `(${context})`]. *)
Definition mergedFragment (title context : string) : string :=
  (if truthy_str (Some title) then title +:+ " " else "")
  +:+ "(" +:+ context +:+ ")".

(** ** The store under the [active] update *)

Lemma setActive_idem r : setActive (setActive r) = setActive r.
Proof. reflexivity. Qed.

Lemma setActive_active r :
  active (setActive r) = Some (negb (truthy (rerolled r))).
Proof. reflexivity. Qed.

Lemma touches_refl rs σ : touches rs σ σ.
Proof. intros l. by left. Qed.

Lemma touches_trans rs σ1 σ2 σ3 :
  touches rs σ1 σ2 -> touches rs σ2 σ3 -> touches rs σ1 σ3.
Proof.
  intros H12 H23 l.
  destruct (H23 l) as [E3 | [Hin E3]], (H12 l) as [E2 | [Hin' E2]];
    rewrite E3, E2; auto.
Qed.

Lemma touches_mono rs rs' σ σ' :
  rs ⊆ rs' -> touches rs σ σ' -> touches rs' σ σ'.
Proof.
  intros Hsub Ht l. destruct (Ht l) as [E | [Hin E]]; auto.
Qed.

Lemma touches_result rs σ σ' l : touches rs σ σ' -> result (σ' l) = result (σ l).
Proof. intros Ht. by destruct (Ht l) as [-> | [_ ->]]. Qed.

Lemma touches_discarded rs σ σ' l :
  touches rs σ σ' -> discarded (σ' l) = discarded (σ l).
Proof. intros Ht. by destruct (Ht l) as [-> | [_ ->]]. Qed.

Lemma touches_rerolled rs σ σ' l :
  touches rs σ σ' -> rerolled (σ' l) = rerolled (σ l).
Proof. intros Ht. by destruct (Ht l) as [-> | [_ ->]]. Qed.

Lemma touches_outside rs σ σ' l : touches rs σ σ' -> l ∉ rs -> σ' l = σ l.
Proof. intros Ht Hl. destruct (Ht l) as [E | [Hin _]]; [done | by destruct Hl]. Qed.

(** An object whose flag was overwritten stays as it is under later
    overwrites. *)
Lemma touches_fixed rs σ σ' l :
  touches rs σ σ' -> σ l = setActive (σ l) -> σ' l = σ l.
Proof. intros Ht Hfix. destruct (Ht l) as [E | [_ E]]; congruence. Qed.

Lemma touches_faces rs σ σ' ls : touches rs σ σ' -> facesOf σ' ls = facesOf σ ls.
Proof.
  intros Ht. unfold facesOf. apply map_ext. intros l. by eapply touches_result.
Qed.

Lemma Die_total_ext σ σ' rs :
  (forall l, l ∈ rs -> σ' l = σ l) -> Die_total σ' rs = Die_total σ rs.
Proof.
  induction rs as [| l rs IH]; intros Hrs; [done |].
  simpl. rewrite (Hrs l) by (by left). rewrite IH; [done |].
  intros l' Hl'. apply Hrs. by right.
Qed.

Lemma alter_touches l σ : touches [l] σ (alter setActive l σ).
Proof.
  intros l'. destruct (decide (l = l')) as [<- | Hne].
  - right. split; [by left |]. by rewrite fn_lookup_alter.
  - left. by rewrite fn_lookup_alter_ne.
Qed.

(** What [forEach] leaves behind: a throw exactly at an [undefined]
    element, otherwise every element is a reference and its object has
    the overwritten flag. *)
Lemma forEach_setActive_spec (tmp : list (option ref)) (σ : store) :
  exists σ' c, forEach_setActive tmp σ = (σ', c) /\
    touches (omap id tmp) σ σ' /\
    match c with
    | Normal rs => tmp = map Some rs /\ forall l, l ∈ rs -> σ' l = setActive (σ' l)
    | Throw e => e = TypeError /\ None ∈ tmp
    end.
Proof.
  revert σ. induction tmp as [| [l |] tmp IH]; intros σ.
  - exists σ, (Normal []). repeat split; [apply touches_refl |].
    intros l Hl. by apply elem_of_nil in Hl.
  - destruct (IH (alter setActive l σ)) as (σ' & c & Hrun & Ht & Hc).
    simpl. unfold bind at 1. unfold modify at 1. unfold bind at 1. rewrite Hrun.
    assert (Ht' : touches (l :: omap id tmp) σ σ').
    { eapply touches_trans.
      - apply (touches_mono [l]); [| apply alter_touches].
        intros x ->%list_elem_of_singleton. by left.
      - apply (touches_mono (omap id tmp)); [| exact Ht].
        intros x Hx. by right. }
    destruct c as [rs | e].
    + exists σ', (Normal (l :: rs)). destruct Hc as [-> Hfix].
      repeat split; [exact Ht' |].
      intros l' [-> | Hl']%elem_of_cons; [| by apply Hfix].
      assert (E : σ' l = alter setActive l σ l).
      { eapply touches_fixed; [exact Ht |]. by rewrite fn_lookup_alter. }
      rewrite E, fn_lookup_alter. reflexivity.
    + exists σ', (Throw e). destruct Hc as [-> Hin].
      repeat split; [exact Ht' |]. by right.
  - exists σ, (Throw TypeError). repeat split; [apply touches_refl | by left].
Qed.

(** ** The result walk of [renderMultiRoll] *)

Section MultiRollProofs.
Context {lib : DiceLibrary} {util : RollUtility}.
Variables (settings : Settings) (roll : Roll) (d20Rolls : Die) (bonus : option Roll).

Let lucky : bool := truthy (halflingLucky (options roll)).
Let icons : bool := D20_ICONS_ENABLED settings.
Let b : Z := match bonus with Some r => total r | None => 0 end.
Let rs : list ref := results d20Rolls.

Lemma entry_ok_touches σ σ' e :
  touches rs σ σ' -> entry_ok icons lucky b σ e -> entry_ok icons lucky b σ' e.
Proof.
  intros Ht (Htot & Hfix & Hshape & Hd20 & Hign).
  assert (Heq : forall l, l ∈ contributing e -> σ' l = σ l).
  { intros l Hl. eapply touches_fixed; eauto. }
  repeat split.
  - rewrite Htot. f_equal. symmetry. by apply Die_total_ext.
  - intros l Hl. rewrite Heq by done. by apply Hfix.
  - destruct Hshape as [(l0 & E & Hf) | (l0 & l1 & E & Hl & Hf)].
    + left. exists l0. split; [done |]. by rewrite (touches_result _ _ _ _ Ht).
    + right. exists l0, l1. by rewrite (touches_result _ _ _ _ Ht).
  - rewrite Hd20. destruct icons; [| done].
    destruct (last (contributing e)); [| done]. simpl.
    by rewrite (touches_result _ _ _ _ Ht).
  - rewrite Hign. f_equal.
    assert (E : existsb (fun l => truthy (discarded (σ' l))) (contributing e)
                = existsb (fun l => truthy (discarded (σ l))) (contributing e)).
    { clear -Ht. induction (contributing e) as [| l ls IH]; [done |].
      simpl. by rewrite IH, (touches_discarded _ _ _ _ Ht). }
    by rewrite E.
Qed.

Lemma contributing_fromTerms σ e d :
  e_roll e = Roll_fromTerms σ [DieTerm d] -> contributing e = results d.
Proof.
  intros E. unfold contributing, dice. rewrite E. simpl. apply app_nil_r.
Qed.

(** One pass of the loop body at an index inside the results. *)
Lemma iteration_spec i σ l0 :
  rs !! i = Some l0 ->
  exists σ' c,
    iteration settings roll d20Rolls bonus i σ = (σ', c) /\
    touches rs σ σ' /\
    match c with
    | Normal (i', e) =>
        entry_ok icons lucky b σ' e
        /\ drop i rs = contributing e ++ drop (S i') rs
        /\ (i <= i')%nat
    | Throw err =>
        err = TypeError /\ lucky = true /\ result (σ l0) = 1 /\ drop i rs = [l0]
    end.
Proof.
  intros Hi.
  set (pair := if lucky && (result (σ l0) =? 1)
               then (S i, [Some l0; rs !! S i]) else (i, [Some l0])).
  assert (Hsub : omap id pair.2 ⊆ rs).
  { intros x Hx. subst pair.
    destruct (lucky && (result (σ l0) =? 1)); simpl in Hx.
    - apply elem_of_cons in Hx as [-> | Hx]; [by eapply list_elem_of_lookup_2 |].
      destruct (rs !! S i) as [l1 |] eqn:E1; simpl in Hx; [| by apply elem_of_nil in Hx].
      apply list_elem_of_singleton in Hx as ->. by eapply list_elem_of_lookup_2.
    - apply list_elem_of_singleton in Hx as ->. by eapply list_elem_of_lookup_2. }
  destruct (forEach_setActive_spec pair.2 σ) as (σ' & c & Hrun & Ht & Hc).
  assert (Hstep : iteration settings roll d20Rolls bonus i σ
    = match c with
      | Throw err => (σ', Throw err)
      | Normal ls =>
          bind
            (if D20_ICONS_ENABLED settings then
               match results d20Rolls !! pair.1 with
               | None => throw TypeError
               | Some l => ret (Some (result (σ' l)))
               end
             else ret None)
            (fun d20 =>
               ret (pair.1,
                 {| e_roll := Roll_fromTerms σ' [DieTerm (mkDie 1 20 ls)];
                    e_total := total (Roll_fromTerms σ' [DieTerm (mkDie 1 20 ls)]) + b;
                    ignored := if existsb (fun l => truthy (discarded (σ' l))) ls
                               then Some true else None;
                    isCrit := isCritical roll;
                    critType := getCritTypeForDie σ' (mkDie 1 20 ls);
                    d20Result := d20 |})) σ'
      end).
  { unfold iteration. unfold bind at 1, get at 1. fold rs. rewrite Hi. fold lucky.
    subst pair. destruct lucky; simpl.
    - destruct (result (σ l0) =? 1); simpl.
      + unfold bind at 1. unfold ret at 1. cbn [andb snd fst] in Hrun.
        unfold bind at 1. rewrite Hrun. by destruct c.
      + unfold bind at 1. unfold ret at 1. cbn [andb snd fst] in Hrun.
        unfold bind at 1. rewrite Hrun. by destruct c.
    - unfold bind at 1. unfold ret at 1. cbn [andb snd fst] in Hrun.
      unfold bind at 1. rewrite Hrun. by destruct c. }
  exists σ'. rewrite Hstep. clear Hstep Hrun.
  assert (Ht' : touches rs σ σ') by (eapply touches_mono; eauto).
  destruct c as [ls | err].
  - destruct Hc as [Hls Hfix].
    assert (Hshape : (ls = [l0] /\ pair.1 = i /\ lucky && (result (σ l0) =? 1) = false)
            \/ (exists l1, ls = [l0; l1] /\ pair.1 = S i /\ rs !! S i = Some l1
                          /\ lucky = true /\ result (σ l0) = 1)).
    { subst pair. destruct (lucky && (result (σ l0) =? 1)) eqn:Elucky; simpl in *.
      - right. destruct ls as [| x [| y [| z ls]]]; simplify_eq/=.
        exists y. apply andb_true_iff in Elucky as [-> ?%Z.eqb_eq]. done.
      - left. destruct ls as [| x [| y ls]]; simplify_eq/=. done. }
    assert (Hlast : exists ll, rs !! pair.1 = Some ll /\ last ls = Some ll).
    { destruct Hshape as [(-> & -> & _) | (l1 & -> & -> & E1 & _)]; eauto. }
    destruct Hlast as (ll & Ell & Elast).
    set (e := {| e_roll := Roll_fromTerms σ' [DieTerm (mkDie 1 20 ls)];
                 e_total := total (Roll_fromTerms σ' [DieTerm (mkDie 1 20 ls)]) + b;
                 ignored := if existsb (fun l => truthy (discarded (σ' l))) ls
                            then Some true else None;
                 isCrit := isCritical roll;
                 critType := getCritTypeForDie σ' (mkDie 1 20 ls);
                 d20Result := if D20_ICONS_ENABLED settings
                              then Some (result (σ' ll)) else None |}).
    exists (Normal (pair.1, e)). split.
    { fold rs. rewrite Ell. unfold bind, ret. subst e.
      destruct (D20_ICONS_ENABLED settings); reflexivity. }
    assert (Hce : contributing e = ls)
      by (by apply (contributing_fromTerms σ' _ (mkDie 1 20 ls))).
    split; [done |]. split; [| split].
    + unfold entry_ok. rewrite Hce. subst e. simpl.
      rewrite evaluateTotal_die. simpl. rewrite Elast.
      split; [done |]. split; [done |].
      split; [| split; [unfold icons; by destruct (D20_ICONS_ENABLED settings) | done]].
      destruct Hshape as [(-> & _ & Hf) | (l1 & -> & _ & _ & Hl & Hf)];
        rewrite <- (touches_result _ _ _ l0 Ht') in Hf; eauto 10.
    + rewrite Hce.
      destruct Hshape as [(-> & -> & _) | (l1 & -> & -> & E1 & _)].
      * by apply drop_S.
      * rewrite (drop_S _ _ _ Hi), (drop_S _ _ _ E1). done.
    + destruct Hshape as [(_ & -> & _) | (l1 & _ & -> & _)]; lia.
  - destruct Hc as [-> Hnone]. exists (Throw TypeError).
    split; [done |]. split; [done |]. split; [done |].
    subst pair. destruct (lucky && (result (σ l0) =? 1)) eqn:Elucky; simpl in *.
    + apply andb_true_iff in Elucky as [-> ?%Z.eqb_eq]. split; [done |]. split; [done |].
      apply elem_of_cons in Hnone as [? | Hnone]; [done |].
      apply list_elem_of_singleton in Hnone.
      rewrite (drop_S _ _ _ Hi). f_equal. apply drop_ge.
      by apply lookup_ge_None_1.
    + apply list_elem_of_singleton in Hnone. done.
Qed.

Lemma dangling_step σ σ1 e i i' :
  touches rs σ σ1 ->
  entry_ok icons lucky b σ1 e ->
  drop i rs = contributing e ++ drop (S i') rs ->
  lucky && dangling (facesOf σ (drop i rs))
  = lucky && dangling (facesOf σ1 (drop (S i') rs)).
Proof.
  intros Ht (_ & _ & Hshape & _) Hdrop.
  destruct lucky; [| done]. simpl in *.
  rewrite <- (touches_faces _ _ _ (drop i rs) Ht), Hdrop.
  destruct Hshape as [(l0 & -> & Hf) | (l0 & l1 & -> & _ & Hf)]; simpl.
  - by rewrite Hf.
  - by rewrite Hf.
Qed.

(** The loop from index [i] on: it ends, with a throw exactly when the
    walk over the remaining faces leaves a 1 without its companion, and
    otherwise with one entry per group of consumed results. *)
Lemma loop_spec fuel : forall i acc σ,
  (length rs - i < fuel)%nat ->
  exists σ' c,
    loop settings roll d20Rolls bonus fuel i acc σ = Some (σ', c) /\
    touches rs σ σ' /\
    match c with
    | Normal es =>
        lucky && dangling (facesOf σ (drop i rs)) = false
        /\ exists new, es = acc ++ new
             /\ concat (map contributing new) = drop i rs
             /\ Forall (entry_ok icons lucky b σ') new
    | Throw err =>
        err = TypeError /\ lucky && dangling (facesOf σ (drop i rs)) = true
    end.
Proof.
  induction fuel as [| fuel IH]; intros i acc σ Hfuel; [lia |].
  simpl. fold rs. destruct (i <? length rs)%nat eqn:Hlt.
  - apply Nat.ltb_lt in Hlt.
    destruct (lookup_lt_is_Some_2 rs i Hlt) as [l0 Hi].
    destruct (iteration_spec i σ l0 Hi) as (σ1 & c1 & Hrun & Ht1 & Hc1).
    rewrite Hrun. destruct c1 as [[i' e] | err].
    + destruct Hc1 as (Hok & Hdrop & Hle).
      destruct (IH (S i') (acc ++ [e]) σ1) as (σ' & c & Hloop & Ht & Hc); [lia |].
      exists σ', c. split; [done |]. split; [by eapply touches_trans |].
      rewrite (dangling_step σ σ1 e i i') by done.
      destruct c as [es | err]; [| done].
      destruct Hc as (Hd & new & -> & Hcat & Hall). split; [done |].
      exists (e :: new). split; [by rewrite <- app_assoc |]. split.
      * simpl. by rewrite Hcat.
      * constructor; [by eapply entry_ok_touches | done].
    + destruct Hc1 as (-> & Hl & Hf & Hdrop).
      exists σ1, (Throw TypeError). split; [done |]. split; [done |]. split; [done |].
      rewrite Hdrop, Hl. simpl. by rewrite Hf.
  - apply Nat.ltb_ge in Hlt. exists σ, (Normal acc).
    split; [done |]. split; [apply touches_refl |].
    rewrite (drop_ge rs i) by done. split; [by destruct lucky |].
    exists []. by rewrite app_nil_r.
Qed.

End MultiRollProofs.

Lemma Die_total_active σ rs : Die_total σ rs = sumZ (facesOf σ (activeOf σ rs)).
Proof.
  induction rs as [| l rs IH]; [done |].
  simpl. destruct (truthy (active (σ l))); simpl; by rewrite IH.
Qed.

Lemma elem_of_concat_map {A B : Type} (f : A -> list B) (l : list A) (x : B) :
  x ∈ concat (map f l) -> exists a, a ∈ l /\ x ∈ f a.
Proof.
  induction l as [| a l IH]; simpl; [by intros ?%elem_of_nil |].
  intros [Hx | Hx]%elem_of_app.
  - exists a. split; [by left | done].
  - destruct (IH Hx) as (a' & Ha' & Hx'). exists a'. split; [by right | done].
Qed.

(** ** [renderMultiRoll] as a whole *)

Section RenderMultiRoll.
Context {lib : DiceLibrary} {util : RollUtility}.
Variables (settings : Settings) (renderData : MultiRollData).

Lemma renderMultiRoll_no_roll σ :
  mr_roll renderData = None ->
  renderMultiRoll settings renderData σ = Some (σ, Throw TypeError).
Proof. intros E. unfold renderMultiRoll. by rewrite E. Qed.

Lemma renderMultiRoll_no_d20 σ roll :
  mr_roll renderData = Some roll ->
  List.find (fun d => faces d =? 20) (dice roll) = None ->
  renderMultiRoll settings renderData σ = Some (σ, Throw TypeError).
Proof. intros E Ed. unfold renderMultiRoll. by rewrite E, Ed. Qed.

(** With a roll that has a d20 group the renderer ends: by a throw
    exactly when the lucky walk leaves a 1 without companion, and
    otherwise with the entries of the walk. *)
Lemma renderMultiRoll_spec σ roll d20Rolls :
  mr_roll renderData = Some roll ->
  List.find (fun d => faces d =? 20) (dice roll) = Some d20Rolls ->
  exists σ' c,
    renderMultiRoll settings renderData σ = Some (σ', c) /\
    touches (results d20Rolls) σ σ' /\
    match c with
    | Normal p =>
        truthy (halflingLucky (options roll))
        && dangling (facesOf σ (results d20Rolls)) = false
        /\ concat (map contributing (entries p)) = results d20Rolls
        /\ Forall (entry_ok (D20_ICONS_ENABLED settings)
                     (truthy (halflingLucky (options roll)))
                     (bonusTotal σ roll) σ') (entries p)
        /\ bonusTooltip p = getTooltip σ' <$> bonusRoll σ roll
        /\ tooltips p = map (fun e => getTooltip σ' (e_roll e)) (entries p)
        /\ p_formula p = formula roll
    | Throw err =>
        err = TypeError
        /\ truthy (halflingLucky (options roll))
           && dangling (facesOf σ (results d20Rolls)) = true
    end.
Proof.
  intros E Ed. unfold renderMultiRoll. rewrite E, Ed.
  destruct (loop_spec settings roll d20Rolls (bonusRoll σ roll)
              (S (length (results d20Rolls))) 0 [] σ)
    as (σ' & c & Hloop & Ht & Hc); [lia |].
  rewrite Hloop. rewrite drop_0 in Hc. destruct c as [es | err].
  - destruct Hc as (Hd & new & -> & Hcat & Hall). simpl in *.
    eexists σ', (Normal _). split; [reflexivity |]. simpl. repeat split; done.
  - exists σ', (Throw err). done.
Qed.

(** The renderer always ends: the fuel of the loop is never used up. *)
Lemma renderMultiRoll_terminates σ :
  exists σ' c, renderMultiRoll settings renderData σ = Some (σ', c).
Proof.
  destruct (mr_roll renderData) as [roll |] eqn:E;
    [| rewrite renderMultiRoll_no_roll by done; eauto].
  destruct (List.find (fun d => faces d =? 20) (dice roll)) as [d20Rolls |] eqn:Ed;
    [| rewrite (renderMultiRoll_no_d20 σ roll) by done; eauto].
  destruct (renderMultiRoll_spec σ roll d20Rolls E Ed) as (σ' & c & Hr & _).
  eauto.
Qed.

End RenderMultiRoll.

(** ** The lucky walk over the faces alone *)

Lemma dangling_ones k : dangling (replicate k 1) = Nat.odd k.
Proof.
  assert (Hboth : dangling (replicate k 1) = Nat.odd k
                  /\ dangling (replicate (S k) 1) = Nat.odd (S k)).
  { induction k as [| k [IH1 IH2]]; [done |].
    split; [done |]. simpl replicate. simpl dangling.
    rewrite IH1. by rewrite Nat.odd_succ_succ. }
  by destruct Hboth.
Qed.

(** The walk passes a prefix that does not end in a 1 and starts
    afresh behind it. *)
Lemma dangling_prefix n : forall pre tl,
  (length pre <= n)%nat ->
  (pre = [] \/ exists x, last pre = Some x /\ x <> 1) ->
  dangling (pre ++ tl) = dangling tl.
Proof.
  induction n as [| n IH]; intros pre tl Hlen Hlast.
  - destruct pre; [done | simpl in Hlen; lia].
  - destruct pre as [| f rest]; [done |].
    destruct Hlast as [? | (x & Hx & Hne)]; [done |].
    simpl in Hlen. simpl app. simpl dangling.
    destruct (f =? 1) eqn:Ef.
    + destruct rest as [| c rest'].
      * simpl in Hx. apply Z.eqb_eq in Ef. congruence.
      * simpl app. apply IH; [simpl in Hlen; lia |].
        destruct rest' as [| y rest'']; [by left |].
        right. exists x. by rewrite !last_cons_cons in Hx.
    + apply IH; [lia |].
      destruct rest as [| y rest']; [by left |].
      right. exists x. by rewrite last_cons_cons in Hx.
Qed.

Lemma leadingOnes_split fs :
  exists rest, fs = replicate (leadingOnes fs) 1 ++ rest
    /\ (rest = [] \/ exists x, head rest = Some x /\ x <> 1).
Proof.
  induction fs as [| f fs (rest & E & Hrest)].
  - exists []. by split; [| left].
  - simpl. destruct (f =? 1) eqn:Ef.
    + apply Z.eqb_eq in Ef as ->. exists rest. split; [| done].
      simpl. by rewrite <- E.
    + exists (f :: fs). split; [done |]. right. exists f.
      split; [done |]. by apply Z.eqb_neq.
Qed.

(** A 1 is left without companion exactly when the faces end in an odd
    number of 1s. *)
Lemma dangling_trailingOnes fs : dangling fs = Nat.odd (trailingOnes fs).
Proof.
  unfold trailingOnes.
  destruct (leadingOnes_split (reverse fs)) as (rest & E & Hrest).
  assert (Efs : fs = reverse rest ++ replicate (leadingOnes (reverse fs)) 1).
  { rewrite <- (reverse_involutive fs) at 1. rewrite E at 1.
    by rewrite reverse_app, reverse_replicate. }
  rewrite Efs at 1.
  rewrite (dangling_prefix (length (reverse rest))); [apply dangling_ones | done |].
  destruct Hrest as [-> | (x & Hx & Hne)]; [by left |].
  right. exists x. by rewrite last_reverse.
Qed.

(** ** Properties of the multi-roll processor *)

Section MultiRollClaims.
Context {lib : DiceLibrary} {util : RollUtility}.
Variables (settings : Settings) (renderData : MultiRollData).

(** A call that returns had a roll with a d20 group, and its entries are
    those of the walk. *)
Lemma renderMultiRoll_Normal σ σ' p :
  renderMultiRoll settings renderData σ = Some (σ', Normal p) ->
  exists roll d20Rolls,
    mr_roll renderData = Some roll
    /\ List.find (fun d => faces d =? 20) (dice roll) = Some d20Rolls
    /\ touches (results d20Rolls) σ σ'
    /\ concat (map contributing (entries p)) = results d20Rolls
    /\ Forall (entry_ok (D20_ICONS_ENABLED settings)
                 (truthy (halflingLucky (options roll)))
                 (bonusTotal σ roll) σ') (entries p)
    /\ bonusTooltip p = getTooltip σ' <$> bonusRoll σ roll.
Proof.
  intros Hrun. destruct (mr_roll renderData) as [roll |] eqn:E;
    [| by rewrite renderMultiRoll_no_roll in Hrun].
  destruct (List.find (fun d => faces d =? 20) (dice roll)) as [d20Rolls |] eqn:Ed;
    [| by rewrite (renderMultiRoll_no_d20 _ _ _ roll) in Hrun].
  destruct (renderMultiRoll_spec settings renderData σ roll d20Rolls E Ed)
    as (σ1 & c & Hr & Ht & Hc).
  rewrite Hr in Hrun. simplify_eq. destruct Hc as (_ & Hcat & Hall & Htip & _).
  exists roll, d20Rolls. done.
Qed.

(** Whatever the outcome, the store changed by overwrites of [active]
    on results of the d20 group only. *)
Lemma renderMultiRoll_touches σ σ' c :
  renderMultiRoll settings renderData σ = Some (σ', c) ->
  (forall l, σ' l = σ l)
  \/ exists roll d20Rolls,
       mr_roll renderData = Some roll
       /\ List.find (fun d => faces d =? 20) (dice roll) = Some d20Rolls
       /\ touches (results d20Rolls) σ σ'.
Proof.
  intros Hrun. destruct (mr_roll renderData) as [roll |] eqn:E.
  - destruct (List.find (fun d => faces d =? 20) (dice roll)) as [d20Rolls |] eqn:Ed.
    + destruct (renderMultiRoll_spec settings renderData σ roll d20Rolls E Ed)
        as (σ1 & c1 & Hr & Ht & _).
      rewrite Hr in Hrun. simplify_eq. right. by exists roll, d20Rolls.
    + rewrite (renderMultiRoll_no_d20 _ _ _ roll) in Hrun by done.
      simplify_eq. by left.
  - rewrite renderMultiRoll_no_roll in Hrun by done. simplify_eq. by left.
Qed.

(** C1: every entry that [renderMultiRoll] produces has as its total the
    sum of the face values of its contributing die results whose [active]
    flag is true (the flags as the entry's results carry them when the
    call returns), plus the total of the bonus roll of the call; results
    whose flag is false add nothing, the bonus total is the same for
    every entry, and it is 0 when the roll has no terms after the
    first. The flag of a contributing result is then the negation of
    its [rerolled] flag, which the walk wrote before it totalled. *)
Theorem entry_total_is_active_sum_plus_bonus σ σ' props roll :
  mr_roll renderData = Some roll ->
  renderMultiRoll settings renderData σ = Some (σ', Normal props) ->
  (forall e, e ∈ entries props ->
     e_total e = sumZ (facesOf σ' (activeOf σ' (contributing e))) + bonusTotal σ roll)
  /\ (bonusTerms roll = [] -> bonusTotal σ roll = 0)
  /\ (forall e l, e ∈ entries props -> l ∈ contributing e ->
        active (σ' l) = Some (negb (truthy (rerolled (σ l))))).
Proof.
  intros E Hrun.
  destruct (renderMultiRoll_Normal σ σ' props Hrun)
    as (roll' & d20Rolls & E' & _ & Ht & _ & Hall & _).
  assert (roll' = roll) as -> by congruence.
  rewrite Forall_forall in Hall. split; [| split].
  - intros e He.
    destruct (Hall e He) as (Htot & _). by rewrite Htot, Die_total_active.
  - intros Hb. unfold bonusTotal, bonusRoll. rewrite Hb. simpl.
    apply evaluateTotal_nil.
  - intros e l He Hl. destruct (Hall e He) as (_ & Hfix & _).
    rewrite (Hfix l Hl). simpl. by rewrite (touches_rerolled _ _ _ _ Ht).
Qed.

(** C5, amended: [renderMultiRoll] does write to the die results it is
    given, but only to their [active] flag: whatever the outcome, every
    die result keeps its face value and its [discarded] and [rerolled]
    flags, its [active] flag is either as before or the negation of its
    [rerolled] flag, and results outside the d20 group are untouched;
    when the call returns, every result of the d20 group has its
    [active] flag set to the negation of its [rerolled] flag. *)
Theorem renderMultiRoll_overwrites_only_active σ σ' c :
  renderMultiRoll settings renderData σ = Some (σ', c) ->
  (forall l,
     result (σ' l) = result (σ l)
     /\ discarded (σ' l) = discarded (σ l)
     /\ rerolled (σ' l) = rerolled (σ l)
     /\ (active (σ' l) = active (σ l)
         \/ active (σ' l) = Some (negb (truthy (rerolled (σ l))))))
  /\ (forall roll d20Rolls,
        mr_roll renderData = Some roll ->
        List.find (fun d => faces d =? 20) (dice roll) = Some d20Rolls ->
        (forall l, l ∉ results d20Rolls -> σ' l = σ l)
        /\ (forall p, c = Normal p ->
              forall l, l ∈ results d20Rolls ->
                active (σ' l) = Some (negb (truthy (rerolled (σ l)))))).
Proof.
  intros Hrun. split.
  - intros l. destruct (renderMultiRoll_touches σ σ' c Hrun)
      as [Hsame | (roll & d20Rolls & _ & _ & Ht)].
    + rewrite Hsame. auto.
    + destruct (Ht l) as [-> | [_ ->]]; simpl; auto.
  - intros roll d20Rolls E Ed. split.
    + intros l Hl. destruct (renderMultiRoll_touches σ σ' c Hrun)
        as [Hsame | (roll' & d20Rolls' & E' & Ed' & Ht)]; [done |].
      assert (roll' = roll) as -> by congruence.
      assert (d20Rolls' = d20Rolls) as -> by congruence.
      by eapply touches_outside.
    + intros p -> l Hl.
      destruct (renderMultiRoll_Normal σ σ' p Hrun)
        as (roll' & d20Rolls' & E' & Ed' & Ht & Hcat & Hall & _).
      assert (roll' = roll) as -> by congruence.
      assert (d20Rolls' = d20Rolls) as -> by congruence.
      rewrite <- Hcat in Hl. apply elem_of_concat_map in Hl as (e & He & Hl).
      rewrite Forall_forall in Hall. destruct (Hall e He) as (_ & Hfix & _).
      rewrite (Hfix l Hl). simpl. by rewrite (touches_rerolled _ _ _ _ Ht).
Qed.

(** C6, amended: with the icon setting enabled the face value recorded
    in an entry is that of the last die result the entry consumed: the
    result that started the entry when it stands alone, the companion
    when the lucky reroll took one; with the setting disabled nothing
    is recorded. *)
Theorem d20Result_is_last_consumed_face σ σ' props :
  renderMultiRoll settings renderData σ = Some (σ', Normal props) ->
  forall e, e ∈ entries props ->
    exists l, last (contributing e) = Some l
      /\ d20Result e
         = if D20_ICONS_ENABLED settings then Some (result (σ l)) else None.
Proof.
  intros Hrun e He.
  destruct (renderMultiRoll_Normal σ σ' props Hrun)
    as (roll & d20Rolls & _ & _ & Ht & _ & Hall & _).
  rewrite Forall_forall in Hall.
  destruct (Hall e He) as (_ & _ & Hshape & Hd20 & _).
  assert (Hlast : exists l, last (contributing e) = Some l).
  { destruct Hshape as [(l0 & -> & _) | (l0 & l1 & -> & _)]; eauto. }
  destruct Hlast as [l Hl]. exists l. split; [done |].
  rewrite Hd20, Hl. simpl. by rewrite (touches_result _ _ _ _ Ht).
Qed.

(** C7, as the code has it: the bonus roll is built even from no terms
    (the test of [bonusTerms] is a test of an array, which is always
    truthy), so the tooltip of that empty roll is requested and handed
    on: the bonus tooltip is present although there are no bonus
    terms. The bonus total of such a call is 0. *)
Theorem bonusTooltip_present_without_bonus_terms σ σ' props roll :
  mr_roll renderData = Some roll ->
  bonusTerms roll = [] ->
  renderMultiRoll settings renderData σ = Some (σ', Normal props) ->
  bonusTooltip props = Some (getTooltip σ' (Roll_fromTerms σ []))
  /\ bonusTotal σ roll = 0.
Proof.
  intros E Hb Hrun.
  destruct (renderMultiRoll_Normal σ σ' props Hrun)
    as (roll' & d20Rolls & E' & _ & _ & _ & _ & Htip).
  assert (roll' = roll) as -> by congruence.
  rewrite Htip. unfold bonusTotal, bonusRoll. rewrite Hb. simpl.
  split; [done | apply evaluateTotal_nil].
Qed.

(** C9, amended: with the lucky reroll enabled, [renderMultiRoll] fails
    with a [TypeError] exactly when the results of the d20 group end in
    an odd number of consecutive 1s, which is when the walk reaches the
    last result as the start of an entry and finds it to be a 1; a last
    1 that an earlier 1 took as its companion is consumed, and the call
    returns. *)
Theorem lucky_walk_fails_iff_odd_trailing_ones σ roll d20Rolls :
  mr_roll renderData = Some roll ->
  List.find (fun d => faces d =? 20) (dice roll) = Some d20Rolls ->
  truthy (halflingLucky (options roll)) = true ->
  (Nat.odd (trailingOnes (facesOf σ (results d20Rolls))) = true ->
     exists σ', renderMultiRoll settings renderData σ = Some (σ', Throw TypeError))
  /\ (Nat.odd (trailingOnes (facesOf σ (results d20Rolls))) = false ->
       exists σ' props,
         renderMultiRoll settings renderData σ = Some (σ', Normal props)).
Proof.
  intros E Ed Hlucky.
  destruct (renderMultiRoll_spec settings renderData σ roll d20Rolls E Ed)
    as (σ' & c & Hr & _ & Hc).
  rewrite Hlucky, dangling_trailingOnes in Hc. simpl in Hc.
  destruct c as [p | err].
  - destruct Hc as (Hodd & _). split; [congruence | eauto].
  - destruct Hc as (-> & Hodd). split; [eauto | congruence].
Qed.

(** C10: the entries of a call that returns cut the results of the d20
    group, in rolled order, into groups of one or two: a group of two
    only with the lucky reroll enabled and behind a first result with
    face value 1, whatever the face value of the second, and a group of
    one, with the lucky reroll enabled, only for a face value other
    than 1. So no entry holds more than two results and a companion
    starts no reroll of its own. *)
Theorem lucky_groups_of_one_or_two σ σ' props roll d20Rolls :
  mr_roll renderData = Some roll ->
  List.find (fun d => faces d =? 20) (dice roll) = Some d20Rolls ->
  renderMultiRoll settings renderData σ = Some (σ', Normal props) ->
  concat (map contributing (entries props)) = results d20Rolls
  /\ forall e, e ∈ entries props ->
       (exists l0, contributing e = [l0]
          /\ (truthy (halflingLucky (options roll)) = true -> result (σ l0) <> 1))
       \/ (exists l0 l1, contributing e = [l0; l1]
             /\ truthy (halflingLucky (options roll)) = true
             /\ result (σ l0) = 1).
Proof.
  intros E Ed Hrun.
  destruct (renderMultiRoll_Normal σ σ' props Hrun)
    as (roll' & d20Rolls' & E' & Ed' & Ht & Hcat & Hall & _).
  assert (roll' = roll) as -> by congruence.
  assert (d20Rolls' = d20Rolls) as -> by congruence.
  split; [done |]. intros e He. rewrite Forall_forall in Hall.
  destruct (Hall e He) as (_ & _ & Hshape & _).
  destruct Hshape as [(l0 & El & Hf) | (l0 & l1 & El & Hl & Hf)].
  - left. exists l0. split; [done |]. intros Hl. rewrite Hl in Hf. simpl in Hf.
    apply Z.eqb_neq in Hf. by rewrite <- (touches_result _ _ _ _ Ht).
  - right. exists l0, l1. by rewrite <- (touches_result _ _ _ _ Ht).
Qed.

End MultiRollClaims.

(** ** The multi-roll properties on concrete rolls *)

(** [2d20kh + 5] with faces 5 (dropped) and 17: two entries, totals 10
    and 22. *)
Lemma entry_total_advantage :
  exists σ' props,
    renderMultiRoll Sample.iconSettings Sample.advantage Sample.advantageStore
      = Some (σ', Normal props)
    /\ map e_total (entries props) = [10; 22]
    /\ (forall roll, mr_roll Sample.advantage = Some roll ->
        bonusTotal Sample.advantageStore roll = 5)
    /\ (forall e roll, mr_roll Sample.advantage = Some roll ->
          e ∈ entries props ->
          e_total e = sumZ (facesOf σ' (activeOf σ' (contributing e)))
                      + bonusTotal Sample.advantageStore roll).
Proof.
  eexists _, _. split; [reflexivity |]. split; [reflexivity |].
  split; [by intros roll [= <-] |]. intros e roll [= <-]. revert e.
  eapply (proj1 (entry_total_is_active_sum_plus_bonus
                   Sample.iconSettings Sample.advantage Sample.advantageStore
                   _ _ _ eq_refl eq_refl)).
Defined.

(** The dropped die of [2d20kh + 5] comes back with its [active] flag
    raised: the caller's die result is not what it was. *)
Lemma advantage_die_is_modified :
  exists σ' props,
    renderMultiRoll Sample.iconSettings Sample.advantage Sample.advantageStore
      = Some (σ', Normal props)
    /\ active (Sample.advantageStore 0%nat) = Some false
    /\ active (σ' 0%nat) = Some true
    /\ σ' 0%nat <> Sample.advantageStore 0%nat.
Proof.
  eexists _, _. split; [reflexivity |]. split; [reflexivity |].
  split; [reflexivity |]. discriminate.
Qed.

Lemma advantage_die_keeps_the_rest :
  exists σ' props,
    renderMultiRoll Sample.iconSettings Sample.advantage Sample.advantageStore
      = Some (σ', Normal props)
    /\ forall l,
         result (σ' l) = result (Sample.advantageStore l)
         /\ discarded (σ' l) = discarded (Sample.advantageStore l)
         /\ rerolled (σ' l) = rerolled (Sample.advantageStore l)
         /\ (active (σ' l) = active (Sample.advantageStore l)
             \/ active (σ' l)
                = Some (negb (truthy (rerolled (Sample.advantageStore l))))).
Proof.
  eexists _, _. split; [reflexivity |].
  eapply (proj1 (renderMultiRoll_overwrites_only_active
                   Sample.iconSettings Sample.advantage Sample.advantageStore
                   _ _ eq_refl)).
Defined.

(** A lucky 1 with companion 15 and the icons enabled: the entry
    records 15, the face of the companion, not the 1 that started it. *)
Lemma d20Result_is_the_companion :
  exists σ' e,
    renderMultiRoll Sample.iconSettings Sample.luckyPair Sample.luckyPairStore
      = Some (σ', Normal (mkMultiRollProps "id" (Some "title") "formula" [e]
                            ["tooltip"] (Some "tooltip")))
    /\ D20_ICONS_ENABLED Sample.iconSettings = true
    /\ contributing e = [0; 1]%nat
    /\ result (Sample.luckyPairStore 0%nat) = 1
    /\ d20Result e = Some 15
    /\ d20Result e <> Some (result (Sample.luckyPairStore 0%nat)).
Proof.
  eexists _, _. split; [reflexivity |]. repeat split; discriminate.
Qed.

Lemma d20Result_lucky_pair :
  exists σ' props,
    renderMultiRoll Sample.iconSettings Sample.luckyPair Sample.luckyPairStore
      = Some (σ', Normal props)
    /\ forall e, e ∈ entries props ->
         exists l, last (contributing e) = Some l
           /\ d20Result e = Some (result (Sample.luckyPairStore l)).
Proof.
  eexists _, _. split; [reflexivity |].
  eapply (d20Result_is_last_consumed_face
            Sample.iconSettings Sample.luckyPair Sample.luckyPairStore _ _ eq_refl).
Defined.

(** A bare [1d20]: no bonus terms, and a bonus tooltip all the same. *)
Lemma bonusTooltip_of_bare_d20 :
  exists σ' props,
    renderMultiRoll Sample.iconSettings Sample.bare Sample.bareStore
      = Some (σ', Normal props)
    /\ bonusTooltip props = Some "tooltip"
    /\ bonusTooltip props <> None.
Proof.
  eexists _, _. split; [reflexivity |].
  split; [| discriminate].
  pose proof (proj1 (bonusTooltip_present_without_bonus_terms
                       Sample.iconSettings Sample.bare Sample.bareStore
                       _ _ _ eq_refl eq_refl eq_refl)) as Htip.
  exact Htip.
Defined.

(** Two 1s with the lucky reroll: the last result has face value 1 and
    the call returns, with one entry of both results. *)
Lemma last_one_taken_as_companion :
  last (facesOf Sample.doubleOneStore [0; 1]%nat) = Some 1
  /\ exists σ' props,
       renderMultiRoll Sample.iconSettings Sample.luckyPair Sample.doubleOneStore
         = Some (σ', Normal props)
       /\ map contributing (entries props) = [[0; 1]%nat].
Proof.
  split; [reflexivity |]. eexists _, _. split; reflexivity.
Qed.

(** Faces 1, 15, 1 with the lucky reroll: the last 1 starts an entry
    and the call fails. *)
Lemma lone_last_one_fails :
  exists σ',
    renderMultiRoll Sample.iconSettings Sample.luckyThree Sample.loneOneStore
      = Some (σ', Throw TypeError).
Proof.
  eapply (proj1 (lucky_walk_fails_iff_odd_trailing_ones
                   Sample.iconSettings Sample.luckyThree Sample.loneOneStore
                   _ _ eq_refl eq_refl eq_refl)).
  reflexivity.
Defined.

(** Faces 1, 1, 5 with the lucky reroll: the second 1 is a companion and
    starts nothing; the 5 stands alone. *)
Lemma groups_of_one_one_five :
  exists σ' props,
    renderMultiRoll Sample.iconSettings Sample.luckyThree Sample.chainStore
      = Some (σ', Normal props)
    /\ map contributing (entries props) = [[0; 1]; [2]]%nat
    /\ concat (map contributing (entries props)) = [0; 1; 2]%nat.
Proof.
  eexists _, _. split; [reflexivity |]. split; [reflexivity |].
  eapply (proj1 (lucky_groups_of_one_or_two
                   Sample.iconSettings Sample.luckyThree Sample.chainStore
                   _ _ _ _ eq_refl eq_refl eq_refl)).
Defined.

(** ** The damage label placement *)

Lemma strict_eq_true a b : strict_eq a b = true <-> a = b.
Proof. unfold strict_eq. apply bool_decide_eq_true. Qed.

Lemma strict_eq_refl a : strict_eq a a = true.
Proof. by apply strict_eq_true. Qed.

Lemma slotOf_not_zero p k : slotOf p = Some k -> p <> JNum 0 /\ p <> JStr "0".
Proof. intros Hk. split; intros ->; discriminate. Qed.

Lemma truthy_str_Some s : s <> "" -> truthy_str (Some s) = true.
Proof.
  intros Hs. simpl. apply negb_true_iff, String.eqb_neq. done.
Qed.

Lemma getLabel_setLabel {A : Type} k (v : A) L : getLabel k (setLabel k v L) = v.
Proof. by destruct k. Qed.

Lemma getLabel_setLabel_ne {A : Type} k k' (v : A) L :
  k <> k' -> getLabel k' (setLabel k v L) = getLabel k' L.
Proof. by destruct k, k'. Qed.

Lemma no_terms_guard (r : option Roll) :
  bool_decide ((length ∘ terms) <$> r = Some 0%nat) = true
  <-> exists b, r = Some b /\ terms b = [].
Proof.
  rewrite bool_decide_eq_true. split.
  - destruct r as [b |]; simpl; [| done]. intros [= Hlen].
    exists b. split; [done |]. by apply length_zero_iff_nil.
  - intros (b & -> & Hb). simpl. by rewrite Hb.
Qed.

Section DamageClaims.
Context {lib : DiceLibrary} {util : RollUtility} {env : Environment}.
Variable settings : Settings.

(** The title and context steps when both are placed in the same slot
    and the title is not replaced: one merged fragment in that slot. *)
Lemma placeLabels_merge damageType versatile ctx k :
  PLACEMENT_DAMAGE_CONTEXT settings = PLACEMENT_DAMAGE_TITLE settings ->
  slotOf (PLACEMENT_DAMAGE_TITLE settings) = Some k ->
  CONTEXT_REPLACE_TITLE settings = false ->
  ctx <> "" ->
  let title := damagePrefix damageType versatile in
  let merged := (if String.eqb title "" then "" else title +:+ " ")
                +:+ "(" +:+ ctx +:+ ")" in
  let labels := setLabel k [merged] (mkLabels [] [] []) in
  placeLabels settings damageType versatile (Some ctx)
  = if negb (strict_eq (PLACEMENT_DAMAGE_TYPE settings) (JStr "0"))
       && (0 <? Z.of_nat (String.length (damageString damageType)))
       && negb (CONTEXT_REPLACE_DAMAGE settings && true
                && loose_eq (PLACEMENT_DAMAGE_TYPE settings)
                     (PLACEMENT_DAMAGE_TITLE settings))
    then push (PLACEMENT_DAMAGE_TYPE settings) (damageString damageType) labels
    else Normal labels.
Proof.
  intros Ecp Hk Hrep Hctx title merged labels.
  destruct (slotOf_not_zero _ _ Hk) as [Hn0 Hs0].
  unfold placeLabels. rewrite Ecp, Hrep, (truthy_str_Some ctx Hctx).
  assert (strict_eq (PLACEMENT_DAMAGE_TITLE settings) (JNum 0) = false) as ->.
  { apply not_true_iff_false. by rewrite strict_eq_true. }
  simpl negb. cbn [andb]. unfold push at 1. rewrite Hk. cbn [andThen].
  rewrite strict_eq_refl. cbn [andb]. unfold mergeContext. rewrite Hk.
  cbn [andThen default]. subst labels merged title.
  destruct k;
    cbn [getLabel setLabel label1 label2 label3 app head tail truthy_str default];
    by destruct (String.eqb (damagePrefix damageType versatile) "").
Qed.

Lemma push_Normal p x (L L' : Labels (list string)) :
  push p x L = Normal L' ->
  exists k, slotOf p = Some k /\ L' = setLabel k (getLabel k L ++ [x]) L.
Proof.
  unfold push. destruct (slotOf p) as [k |]; [| done].
  intros [= <-]. by exists k.
Qed.

Lemma push_zero x (L : Labels (list string)) : push (JNum 0) x L = Throw TypeError.
Proof. reflexivity. Qed.

(** C2, as the code has it: the guards of the three placements do not
    test the same zero. With the numeral [0] the title guard holds, but
    the type guard and the context guard compare with the text ["0"],
    let the numeral through and push onto [labels[0]], which is
    [undefined]: the engine throws. With the text ["0"] it is the title
    guard that fails. *)
Theorem placement_zero_throws damageType versatile context :
  (PLACEMENT_DAMAGE_TYPE settings = JNum 0 ->
   0 < Z.of_nat (String.length (damageString damageType)) ->
   truthy_str context = false ->
   placeLabels settings damageType versatile context = Throw TypeError)
  /\ (PLACEMENT_DAMAGE_CONTEXT settings = JNum 0 ->
      truthy_str context = true ->
      placeLabels settings damageType versatile context = Throw TypeError)
  /\ (PLACEMENT_DAMAGE_TITLE settings = JStr "0" ->
      truthy_str context = false ->
      placeLabels settings damageType versatile context = Throw TypeError).
Proof.
  split; [| split].
  - intros Et Hlen Hctx. unfold placeLabels. rewrite Et, Hctx.
    rewrite !andb_false_r. cbn [negb andb].
    apply Z.ltb_lt in Hlen. rewrite Hlen.
    destruct (negb (strict_eq (PLACEMENT_DAMAGE_TITLE settings) (JNum 0)));
      [| reflexivity].
    cbn [andb]. unfold push at 1.
    destruct (slotOf (PLACEMENT_DAMAGE_TITLE settings)); reflexivity.
  - intros Ec Hctx. unfold placeLabels. rewrite Ec, Hctx.
    destruct (strict_eq (PLACEMENT_DAMAGE_TITLE settings) (JNum 0)) eqn:Et.
    + cbn [negb andb andThen]. apply strict_eq_true in Et. rewrite Et.
      by rewrite andb_false_r.
    + assert (strict_eq (JNum 0) (PLACEMENT_DAMAGE_TITLE settings) = false) as ->.
      { apply not_true_iff_false. rewrite strict_eq_true. intros E.
        rewrite <- E in Et. by rewrite strict_eq_refl in Et. }
      cbn [negb andb].
      destruct (negb _ : bool); [| reflexivity].
      unfold push at 1.
      destruct (slotOf (PLACEMENT_DAMAGE_TITLE settings)); reflexivity.
  - intros Et Hctx. unfold placeLabels. rewrite Et, Hctx.
    rewrite andb_false_r. reflexivity.
Qed.

Lemma string_app_assoc (a b c : string) : (a +:+ b) +:+ c = a +:+ b +:+ c.
Proof.
  induction a as [| x a IH]; [done |].
  change (String x ((a +:+ b) +:+ c) = String x (a +:+ b +:+ c)).
  by rewrite IH.
Qed.

(** C4, amended: when the context is placed in the slot of the title,
    that slot is one of the three, a context is present and the title
    was placed, the title fragment is replaced by one merged fragment
    and the context is not appended as a fragment of its own. The
    merged fragment is ["<title> (<context>)"] when the title prefix is
    not empty and ["(<context>)"] when it is empty; the only fragment
    that can follow it in the slot is the damage type. *)
Theorem context_merges_into_title_fragment damageType versatile ctx k :
  PLACEMENT_DAMAGE_CONTEXT settings = PLACEMENT_DAMAGE_TITLE settings ->
  slotOf (PLACEMENT_DAMAGE_TITLE settings) = Some k ->
  CONTEXT_REPLACE_TITLE settings = false ->
  ctx <> "" ->
  let title := damagePrefix damageType versatile in
  let merged := if String.eqb title "" then "(" +:+ ctx +:+ ")"
                else mergedForm title ctx in
  (forall L, placeLabels settings damageType versatile (Some ctx) = Normal L ->
     getLabel k L = [merged] \/ getLabel k L = [merged; damageString damageType])
  /\ (PLACEMENT_DAMAGE_TYPE settings = JStr "0"
      \/ is_Some (slotOf (PLACEMENT_DAMAGE_TYPE settings)) ->
      exists L, placeLabels settings damageType versatile (Some ctx) = Normal L).
Proof.
  intros Ecp Hk Hrep Hctx title merged.
  rewrite (placeLabels_merge damageType versatile ctx k Ecp Hk Hrep Hctx).
  assert (Em : (if String.eqb title "" then "" else title +:+ " ")
               +:+ "(" +:+ ctx +:+ ")" = merged).
  { subst merged title. unfold mergedForm.
    destruct (String.eqb (damagePrefix damageType versatile) ""); [done |].
    by rewrite string_app_assoc. }
  fold title. rewrite Em. split.
  - intros L. destruct (_ && _ && _ : bool).
    + intros (k' & _ & ->)%push_Normal. destruct (decide (k' = k)) as [-> | Hne].
      * right. by rewrite !getLabel_setLabel.
      * left. by rewrite getLabel_setLabel_ne, getLabel_setLabel.
    + intros [= <-]. left. by rewrite getLabel_setLabel.
  - intros [E0 | [k' Hk']].
    + rewrite E0, strict_eq_refl. cbn [negb andb]. eauto.
    + destruct (_ && _ && _ : bool); [| eauto].
      unfold push. rewrite Hk'. eauto.
Qed.

(** C3, amended: for the damage type "fire", a recognised damage type
    with label [typeLabel], the context "Sneak Attack", title and context
    both placed in slot 1 and the title not replaced, slot 1 starts with
    the single merged fragment "Damage (Sneak Attack)", not with the two
    fragments "Damage" and "Sneak Attack": its text is "Damage (Sneak
    Attack)", followed by " - " and the type label when the damage type
    is placed in slot 1 as well. *)
Theorem fire_sneak_attack_top_slot typeLabel :
  PLACEMENT_DAMAGE_TITLE settings = JNum 1 ->
  PLACEMENT_DAMAGE_CONTEXT settings = JNum 1 ->
  CONTEXT_REPLACE_TITLE settings = false ->
  healingTypes !! "fire" = None ->
  damageTypes !! "fire" = Some typeLabel ->
  typeLabel <> "" ->
  localize (chatKey ROLL_TYPE_DAMAGE) = "Damage" ->
  (forall L, placeLabels settings "fire" false (Some "Sneak Attack") = Normal L ->
     (label1 (joinLabels L) = "Damage (Sneak Attack)"
      \/ label1 (joinLabels L) = "Damage (Sneak Attack) - " +:+ typeLabel)
     /\ (slotOf (PLACEMENT_DAMAGE_TYPE settings) <> Some Slot1 ->
         label1 (joinLabels L) = "Damage (Sneak Attack)"))
  /\ (PLACEMENT_DAMAGE_TYPE settings = JStr "0"
      \/ is_Some (slotOf (PLACEMENT_DAMAGE_TYPE settings)) ->
      exists L, placeLabels settings "fire" false (Some "Sneak Attack") = Normal L).
Proof.
  intros Et Ec Hrep Hheal Hdmg Hlabel Hloc.
  assert (Ecp : PLACEMENT_DAMAGE_CONTEXT settings = PLACEMENT_DAMAGE_TITLE settings)
    by congruence.
  assert (Hk : slotOf (PLACEMENT_DAMAGE_TITLE settings) = Some Slot1)
    by (by rewrite Et).
  assert (Hprefix : damagePrefix "fire" false = "Damage").
  { unfold damagePrefix. rewrite Hheal, Hdmg, Hloc.
    rewrite (truthy_str_Some typeLabel Hlabel). done. }
  assert (Hstr : damageString "fire" = typeLabel).
  { unfold damageString. by rewrite Hdmg. }
  split.
  - intros L HL.
    rewrite (placeLabels_merge "fire" false "Sneak Attack" Slot1 Ecp Hk Hrep) in HL
      by done.
    rewrite Hprefix, Hstr in HL. cbn [String.eqb Ascii.eqb Bool.eqb] in HL.
    destruct (_ && _ && _ : bool).
    + apply push_Normal in HL as (k' & Hk' & ->). destruct k'.
      * split; [by right | congruence].
      * split; [by left | done].
      * split; [by left | done].
    + injection HL as <-. split; [by left | done].
  - rewrite (placeLabels_merge "fire" false "Sneak Attack" Slot1 Ecp Hk Hrep)
      by done.
    intros [E0 | [k' Hk']].
    + rewrite E0, strict_eq_refl. cbn [negb andb]. eauto.
    + destruct (_ && _ && _ : bool); [| eauto].
      unfold push. rewrite Hk'. eauto.
Qed.

(** C8, amended: [renderDamageRoll] returns nothing exactly when both
    rolls are present and both have no terms. In every other case in
    which at least one of the two rolls is present and the label
    placement returns, it returns the complete output object: the three
    slot texts, the summaries of the rolls that are present, and as
    formula that of the base roll when the base roll is present and that
    of the critical roll otherwise. *)
Theorem renderDamageRoll_outcomes renderData σ :
  let empty :=
    exists b c, baseRoll renderData = Some b /\ critRoll renderData = Some c
                /\ terms b = [] /\ terms c = [] in
  (renderDamageRoll settings renderData σ = Normal None <-> empty)
  /\ (forall L,
        ~ empty ->
        is_Some (baseRoll renderData) \/ is_Some (critRoll renderData) ->
        placeLabels settings (damageType renderData) (versatile renderData)
          (context renderData) = Normal L ->
        exists props,
          renderDamageRoll settings renderData σ = Normal (Some props)
          /\ dp_formula props
             = match baseRoll renderData with
               | Some b => formula b
               | None => from_option formula "" (critRoll renderData)
               end
          /\ damagetop props = join " - " (label1 L)
          /\ damagemid props = join " - " (label2 L)
          /\ damagebottom props = join " - " (label3 L)
          /\ base props = summary σ <$> baseRoll renderData
          /\ crit props = summary σ <$> critRoll renderData).
Proof.
  intros empty.
  assert (Hguard :
    bool_decide ((length ∘ terms) <$> baseRoll renderData = Some 0%nat)
    && bool_decide ((length ∘ terms) <$> critRoll renderData = Some 0%nat) = true
    <-> empty).
  { rewrite andb_true_iff, !no_terms_guard. subst empty. split.
    - intros [(b & Eb & Hb) (c & Ec & Hc)]. by exists b, c.
    - intros (b & c & Eb & Ec & Hb & Hc). split; eauto. }
  unfold renderDamageRoll. split.
  - destruct (_ && _ : bool) eqn:Eg.
    + split; [intros _; by apply Hguard | done].
    + split.
      * destruct (placeLabels _ _ _ _); [| done]. simpl.
        by destruct (baseRoll renderData), (critRoll renderData).
      * intros He%Hguard. congruence.
  - intros L Hne Hsome HL.
    destruct (_ && _ : bool) eqn:Eg; [by destruct Hne; apply Hguard |].
    rewrite HL. simpl.
    destruct (baseRoll renderData) as [b |] eqn:Eb.
    + eexists. split; [reflexivity |]. simpl. done.
    + destruct (critRoll renderData) as [c |] eqn:Ec.
      * eexists. split; [reflexivity |]. simpl. done.
      * destruct Hsome as [[? ?] | [? ?]]; done.
Qed.

End DamageClaims.

(** ** The damage properties on concrete settings *)

(** Type placement the numeral 0, fire damage, no context: the engine
    throws, and the field renderer with it. *)
Lemma type_placement_zero_fails :
  placeLabels (Sample.numericSettings true 1 0 1 false false) "fire" false None
    = Throw TypeError
  /\ renderDamageRoll (Sample.numericSettings true 1 0 1 false false)
       (Sample.fireBolt (Some (Sample.damageRoll 3)) None) (Sample.storeOf [])
     = Throw TypeError.
Proof.
  split; [| reflexivity].
  apply (proj1 (placement_zero_throws
                  (Sample.numericSettings true 1 0 1 false false) "fire" false None));
    reflexivity.
Defined.

(** Title and context in slot 1, type in slot 2: slot 1 reads "Damage
    (Sneak Attack)" and not "Damage - Sneak Attack". *)
Lemma fire_sneak_attack_is_merged :
  exists props,
    renderDamageRoll (Sample.numericSettings true 1 2 1 false false)
      (Sample.sneakAttack "fire" (Some (Sample.damageRoll 3)) None)
      (Sample.storeOf [])
    = Normal (Some props)
    /\ damagetop props = "Damage (Sneak Attack)"
    /\ damagetop props <> "Damage - Sneak Attack".
Proof.
  eexists. split; [reflexivity |]. split; [reflexivity | discriminate].
Qed.

Lemma fire_sneak_attack_top_slot_sample :
  exists L,
    placeLabels (Sample.numericSettings true 1 2 1 false false) "fire" false
      (Some "Sneak Attack") = Normal L
    /\ label1 (joinLabels L) = "Damage (Sneak Attack)".
Proof.
  eexists. split; [reflexivity |].
  assert (Hfire : "Fire" <> "") by discriminate.
  apply (proj1 (fire_sneak_attack_top_slot (env := Sample.environment)
                  (Sample.numericSettings true 1 2 1 false false) "Fire"
                  eq_refl eq_refl eq_refl eq_refl eq_refl Hfire eq_refl));
    [reflexivity | discriminate].
Defined.

(** A damage type that the game system does not know has an empty
    title prefix: the merged fragment is "(Sneak Attack)", without the
    space that ["<title> (<context>)"] would have in front. *)
Lemma merged_fragment_of_empty_title :
  exists L,
    placeLabels (Sample.numericSettings true 1 2 1 false false) "unknown" false
      (Some "Sneak Attack") = Normal L
    /\ PLACEMENT_DAMAGE_CONTEXT (Sample.numericSettings true 1 2 1 false false)
       = PLACEMENT_DAMAGE_TITLE (Sample.numericSettings true 1 2 1 false false)
    /\ slotOf (PLACEMENT_DAMAGE_TITLE (Sample.numericSettings true 1 2 1 false false))
       = Some Slot1
    /\ damagePrefix "unknown" false = ""
    /\ label1 L = ["(Sneak Attack)"]
    /\ label1 L <> [mergedForm (damagePrefix "unknown" false) "Sneak Attack"].
Proof.
  eexists. split; [reflexivity |]. repeat split. discriminate.
Qed.

Lemma context_merges_sample :
  exists L,
    placeLabels (Sample.numericSettings true 2 2 2 false false) "fire" true
      (Some "Sneak Attack") = Normal L
    /\ getLabel Slot2 L = ["Damage [Versatile] (Sneak Attack)"; "Fire"].
Proof.
  eexists. split; [reflexivity |].
  destruct (proj1 (context_merges_into_title_fragment (env := Sample.environment)
                     (Sample.numericSettings true 2 2 2 false false)
                     "fire" true "Sneak Attack" Slot2 eq_refl eq_refl eq_refl
                     ltac:(discriminate)) _ eq_refl) as [E | E];
    [discriminate E | exact E].
Defined.

(** Neither roll given: the renderer throws on the formula. *)
Lemma no_rolls_at_all_fails :
  baseRoll (Sample.fireBolt None None) = None
  /\ critRoll (Sample.fireBolt None None) = None
  /\ renderDamageRoll (Sample.numericSettings true 1 2 3 false false)
       (Sample.fireBolt None None) (Sample.storeOf [])
     = Throw TypeError.
Proof. repeat split. Qed.

(** Only a critical roll given: its formula is the one handed on. *)
Lemma crit_roll_alone_renders :
  exists props,
    renderDamageRoll (Sample.numericSettings true 1 2 3 false false)
      (Sample.fireBolt None (Some (Sample.damageRoll 3))) (Sample.storeOf [])
    = Normal (Some props)
    /\ dp_formula props = formula (Sample.damageRoll 3)
    /\ base props = None.
Proof.
  destruct (proj2 (renderDamageRoll_outcomes
                     (Sample.numericSettings true 1 2 3 false false)
                     (Sample.fireBolt None (Some (Sample.damageRoll 3)))
                     (Sample.storeOf [])) _
              ltac:(intros (b & c & [=] & _))
              ltac:(right; eexists; reflexivity)
              eq_refl)
    as (props & Hrun & Hf & _ & _ & _ & Hb & _).
  exists props. done.
Defined.

(** ** More on the result walk *)

Lemma singleton_groups {A B : Type} (f : A -> list B) (es : list A) :
  forall rs,
    Forall (fun e => exists l, f e = [l]) es ->
    concat (map f es) = rs ->
    map f es = map (fun l => [l]) rs.
Proof.
  induction es as [| e es IH]; intros rs Hall Hcat.
  - simpl in Hcat. by subst rs.
  - apply Forall_cons in Hall as [[l El] Hall]. simpl in Hcat. rewrite El in Hcat.
    subst rs. simpl. rewrite El. f_equal. by apply IH.
Qed.

Lemma group_sizes {A B : Type} (f : A -> list B) (es : list A) :
  Forall (fun e => length (f e) = 1%nat \/ length (f e) = 2%nat) es ->
  (length es <= length (concat (map f es)) <= 2 * length es)%nat.
Proof.
  induction es as [| e es IH]; intros Hall; [simpl; lia |].
  apply Forall_cons in Hall as [He Hall]. specialize (IH Hall).
  simpl. rewrite length_app. lia.
Qed.

(** The total of a die whose results all carry the overwritten flag,
    read against the store before the overwrite. *)
Lemma Die_total_non_rerolled rs0 σ σ' rs :
  touches rs0 σ σ' ->
  (forall l, l ∈ rs -> σ' l = setActive (σ' l)) ->
  Die_total σ' rs
  = sumZ (facesOf σ (List.filter (fun l => negb (truthy (rerolled (σ l)))) rs)).
Proof.
  intros Ht. induction rs as [| l rs IH]; intros Hfix; [done |].
  simpl. rewrite (Hfix l) by (by left). simpl.
  rewrite (touches_rerolled _ _ _ _ Ht), (touches_result _ _ _ _ Ht).
  rewrite IH by (intros l' Hl'; apply Hfix; by right).
  by destruct (negb (truthy (rerolled (σ l)))).
Qed.

Section MultiRollExtras.
Context {lib : DiceLibrary} {util : RollUtility}.
Variables (settings : Settings) (renderData : MultiRollData).

(** Without the lucky reroll, a roll with a d20 group always renders,
    with exactly one entry per die result, in rolled order, and one
    tooltip per entry. *)
Theorem no_lucky_one_entry_per_result σ roll d20Rolls :
  mr_roll renderData = Some roll ->
  List.find (fun d => faces d =? 20) (dice roll) = Some d20Rolls ->
  truthy (halflingLucky (options roll)) = false ->
  exists σ' props,
    renderMultiRoll settings renderData σ = Some (σ', Normal props)
    /\ map contributing (entries props) = map (fun l => [l]) (results d20Rolls)
    /\ length (entries props) = length (results d20Rolls)
    /\ length (tooltips props) = length (results d20Rolls).
Proof.
  intros E Ed Hlucky.
  destruct (renderMultiRoll_spec settings renderData σ roll d20Rolls E Ed)
    as (σ' & c & Hr & _ & Hc).
  rewrite Hlucky in Hc. destruct c as [p | err]; [| by destruct Hc].
  destruct Hc as (_ & Hcat & Hall & _ & Htips & _).
  assert (Hmap : map contributing (entries p) = map (fun l => [l]) (results d20Rolls)).
  { apply singleton_groups; [| done].
    eapply Forall_impl; [exact Hall |]. intros e (_ & _ & Hshape & _).
    destruct Hshape as [(l0 & El & _) | (l0 & l1 & _ & Hl & _)]; [eauto | done]. }
  assert (Hlen : length (entries p) = length (results d20Rolls)).
  { rewrite <- (length_map contributing), Hmap. apply length_map. }
  exists σ', p. repeat split; [done.. |].
  by rewrite Htips, length_map.
Qed.

(** With or without the lucky reroll, a call that returns has at most as
    many entries as die results and at least half as many. *)
Theorem entry_count_bounds σ σ' props roll d20Rolls :
  mr_roll renderData = Some roll ->
  List.find (fun d => faces d =? 20) (dice roll) = Some d20Rolls ->
  renderMultiRoll settings renderData σ = Some (σ', Normal props) ->
  (length (entries props) <= length (results d20Rolls) <= 2 * length (entries props))%nat.
Proof.
  intros E Ed Hrun.
  destruct (renderMultiRoll_Normal settings renderData σ σ' props Hrun)
    as (roll' & d20Rolls' & E' & Ed' & _ & Hcat & Hall & _).
  assert (roll' = roll) as -> by congruence.
  assert (d20Rolls' = d20Rolls) as -> by congruence.
  rewrite <- Hcat. apply group_sizes.
  eapply Forall_impl; [exact Hall |]. intros e (_ & _ & Hshape & _).
  destruct Hshape as [(l0 & -> & _) | (l0 & l1 & -> & _)]; auto.
Qed.

(** Read against the die results as the caller passed them, the total
    of an entry is the sum of the face values of its contributing
    results that are not flagged [rerolled], plus the bonus total: the
    [active] flag that a result came with plays no part. So an entry of
    a rerolled 1 and its companion totals the face of the companion plus
    the bonus. *)
Theorem entry_total_counts_non_rerolled σ σ' props roll :
  mr_roll renderData = Some roll ->
  renderMultiRoll settings renderData σ = Some (σ', Normal props) ->
  (forall e, e ∈ entries props ->
     e_total e
     = sumZ (facesOf σ (List.filter (fun l => negb (truthy (rerolled (σ l))))
                          (contributing e)))
       + bonusTotal σ roll)
  /\ (forall e l0 l1, e ∈ entries props ->
        contributing e = [l0; l1] ->
        truthy (rerolled (σ l0)) = true ->
        truthy (rerolled (σ l1)) = false ->
        e_total e = result (σ l1) + bonusTotal σ roll).
Proof.
  intros E Hrun.
  destruct (renderMultiRoll_Normal settings renderData σ σ' props Hrun)
    as (roll' & d20Rolls & E' & _ & Ht & _ & Hall & _).
  assert (roll' = roll) as -> by congruence.
  rewrite Forall_forall in Hall.
  assert (Htotal : forall e, e ∈ entries props ->
     e_total e
     = sumZ (facesOf σ (List.filter (fun l => negb (truthy (rerolled (σ l))))
                          (contributing e)))
       + bonusTotal σ roll).
  { intros e He. destruct (Hall e He) as (Htot & Hfix & _).
    rewrite Htot. f_equal. by eapply Die_total_non_rerolled. }
  split; [done |]. intros e l0 l1 He Ec H0 H1.
  rewrite (Htotal e He), Ec. simpl. rewrite H0, H1. simpl. lia.
Qed.

(** The [ignored] mark of an entry is [true] exactly when one of its
    contributing results came flagged [discarded], and is absent
    otherwise; it is never [false]. *)
Theorem ignored_iff_some_discarded σ σ' props :
  renderMultiRoll settings renderData σ = Some (σ', Normal props) ->
  forall e, e ∈ entries props ->
    (ignored e = Some true
     <-> exists l, l ∈ contributing e /\ truthy (discarded (σ l)) = true)
    /\ (ignored e = Some true \/ ignored e = None).
Proof.
  intros Hrun e He.
  destruct (renderMultiRoll_Normal settings renderData σ σ' props Hrun)
    as (roll & d20Rolls & _ & _ & Ht & _ & Hall & _).
  rewrite Forall_forall in Hall.
  destruct (Hall e He) as (_ & _ & _ & _ & Hign). rewrite Hign.
  destruct (existsb _ _) eqn:Eex.
  - split; [| by left]. split; [intros _ | done].
    apply existsb_exists in Eex as (l & Hl & Hd).
    exists l. split; [by apply list_elem_of_In |].
    by rewrite <- (touches_discarded _ _ _ _ Ht).
  - split; [| by right]. split; [done |]. intros (l & Hl & Hd).
    assert (existsb (fun l => truthy (discarded (σ' l))) (contributing e) = true)
      as Hex; [| congruence].
    apply existsb_exists. exists l. split; [by apply list_elem_of_In |].
    by rewrite (touches_discarded _ _ _ _ Ht).
Qed.

(** Rendering the same roll again changes nothing more: after a call
    that returned, a second call on the die results it left returns too
    and leaves every die result as it found it. *)
Theorem second_render_keeps_the_store σ σ' props :
  renderMultiRoll settings renderData σ = Some (σ', Normal props) ->
  exists σ'' props',
    renderMultiRoll settings renderData σ' = Some (σ'', Normal props')
    /\ forall l, σ'' l = σ' l.
Proof.
  intros Hrun.
  destruct (renderMultiRoll_Normal settings renderData σ σ' props Hrun)
    as (roll & d20Rolls & E & Ed & Ht & Hcat & Hall & _).
  destruct (renderMultiRoll_spec settings renderData σ roll d20Rolls E Ed)
    as (σ1 & c1 & Hr1 & _ & Hc1).
  rewrite Hr1 in Hrun. simplify_eq. destruct Hc1 as (Hd & _).
  destruct (renderMultiRoll_spec settings renderData σ' roll d20Rolls E Ed)
    as (σ'' & c & Hr & Ht' & Hc).
  rewrite (touches_faces _ _ _ _ Ht) in Hc.
  destruct c as [p' | err]; [| destruct Hc; congruence].
  exists σ'', p'. split; [done |]. intros l.
  destruct (decide (l ∈ results d20Rolls)) as [Hl | Hl];
    [| by eapply touches_outside].
  eapply touches_fixed; [exact Ht' |].
  rewrite <- Hcat in Hl. apply elem_of_concat_map in Hl as (e & He & Hl).
  rewrite Forall_forall in Hall. destruct (Hall e He) as (_ & Hfix & _).
  by apply Hfix.
Qed.

(** [renderMultiRoll] fails in three situations and no other: no roll
    is given; the roll has no die of 20 faces; or the lucky reroll is on
    and the results of the d20 group end in an odd number of 1s. In the
    first two the die results are left as they were. *)
Theorem renderMultiRoll_failures σ :
  exists σ' c,
    renderMultiRoll settings renderData σ = Some (σ', c)
    /\ ((exists err, c = Throw err)
        <-> mr_roll renderData = None
            \/ exists roll, mr_roll renderData = Some roll
                 /\ (List.find (fun d => faces d =? 20) (dice roll) = None
                     \/ exists d20Rolls,
                          List.find (fun d => faces d =? 20) (dice roll) = Some d20Rolls
                          /\ truthy (halflingLucky (options roll)) = true
                          /\ Nat.odd (trailingOnes (facesOf σ (results d20Rolls))) = true))
    /\ (mr_roll renderData = None
        \/ (exists roll, mr_roll renderData = Some roll
              /\ List.find (fun d => faces d =? 20) (dice roll) = None) ->
        σ' = σ).
Proof.
  destruct (mr_roll renderData) as [roll |] eqn:E.
  - destruct (List.find (fun d => faces d =? 20) (dice roll)) as [d20Rolls |] eqn:Ed.
    + destruct (renderMultiRoll_spec settings renderData σ roll d20Rolls E Ed)
        as (σ' & c & Hr & _ & Hc).
      exists σ', c. split; [done |]. rewrite dangling_trailingOnes in Hc. split.
      * split.
        -- intros [err ->]. destruct Hc as (_ & [Hl Ho]%andb_true_iff).
           right. exists roll. split; [done |]. right. exists d20Rolls.
           rewrite Ed. done.
        -- intros [? | (roll' & [= <-] & [? | (d & Ed' & Hl & Ho)])];
             [congruence.. |].
           rewrite Ed in Ed'. simplify_eq. destruct c as [p | err]; [| eauto].
           destruct Hc as (Hc & _). rewrite Hl, Ho in Hc. done.
      * intros [? | (roll' & [= <-] & Hnone)]; congruence.
    + exists σ, (Throw TypeError).
      split; [by apply (renderMultiRoll_no_d20 _ _ _ roll) |]. split; [| done].
      split; [| eauto]. intros _. right. exists roll. split; [done |]. by left.
  - exists σ, (Throw TypeError).
    split; [by apply renderMultiRoll_no_roll |]. split; [| done].
    split; [by left | eauto].
Qed.

End MultiRollExtras.

Section EntryShape.
Context {lib : DiceLibrary} {util : RollUtility}.
Variables (settings : Settings) (roll : Roll) (d20Rolls : Die) (bonus : option Roll).



End EntryShape.

Section EntryShapeOfRender.
Context {lib : DiceLibrary} {util : RollUtility}.
Variables (settings : Settings) (renderData : MultiRollData).


End EntryShapeOfRender.

(** ** The attack field *)

Section AttackExtras.
Context {lib : DiceLibrary} {util : RollUtility} {env : Environment}.
Variables (settings : Settings) (ROLL_TYPE_ATTACK : string).


End AttackExtras.

(** ** More on the label placement *)

Ltac label_cbn :=
  cbn [getLabel setLabel label1 label2 label3 app head tail default from_option id
       truthy_str] in *.

Ltac solve_sublists :=
  intros []; label_cbn; eauto 10 using sublist_nil, sublist_skip, sublist_cons.

Ltac solve_structure a :=
  exists a; split; [first [by left | by right] |];
  split; [label_cbn; solve_submseteq | solve_sublists].

Ltac solve_merged :=
  eexists; split;
  [right; unfold mergedFragment; cbn [truthy_str];
   match goal with H : negb _ = _ |- _ => rewrite H end; reflexivity |];
  split; [label_cbn; solve_submseteq | solve_sublists].

Ltac open_placeLabels :=
  unfold placeLabels, push, mergeContext, andThen, fragments;
  cbn [PLACEMENT_DAMAGE_TITLE PLACEMENT_DAMAGE_TYPE PLACEMENT_DAMAGE_CONTEXT
       CONTEXT_REPLACE_TITLE CONTEXT_REPLACE_DAMAGE].

Lemma loose_eq_refl {env : Environment} a : loose_eq a a = true.
Proof. destruct a; simpl; by apply bool_decide_eq_true. Qed.

Lemma slotOf_slotNumber k : slotOf (JNum (slotNumber k)) = Some k.
Proof. by destruct k. Qed.

Section PlacementExtras.
Context {env : Environment}.

(** Whatever the settings, the labels that the placement returns hold
    each of the three fragments at most once over all slots, and within
    a slot in the order title, context, damage type; the title fragment
    is the title prefix or, after a merge, the merged fragment, and then
    the context is no fragment of its own. *)
Theorem placement_structure settings damageType versatile context L :
  placeLabels settings damageType versatile context = Normal L ->
  exists a,
    (a = damagePrefix damageType versatile
     \/ a = mergedFragment (damagePrefix damageType versatile) (default "" context))
    /\ fragments L ⊆+ [a; default "" context; damageString damageType]
    /\ forall k, getLabel k L `sublist_of`
                   [a; default "" context; damageString damageType].
Proof.
  destruct settings as [icons tp typ cp rt rd]. open_placeLabels.
  intros HL. set (prefix := damagePrefix damageType versatile) in *.
  set (ty := damageString damageType) in *.
  set (ctx := default "" context) in *.
  destruct (strict_eq cp tp) eqn:Ecp; [apply strict_eq_true in Ecp; subst cp |].
  - destruct (slotOf tp) as [[] |], (slotOf typ) as [[] |]; label_cbn.
    all: repeat case_match; simplify_eq; label_cbn.
    all: first [solve_structure prefix | solve_merged].
  - destruct (slotOf tp) as [[] |], (slotOf typ) as [[] |], (slotOf cp) as [[] |];
      label_cbn.
    all: repeat case_match; simplify_eq; label_cbn.
    all: solve_structure prefix.
Qed.

(** The placement returns whenever each of the three placement settings
    names one of the three slots. *)
Theorem placement_returns_on_valid_slots settings damageType versatile context :
  is_Some (slotOf (PLACEMENT_DAMAGE_TITLE settings)) ->
  is_Some (slotOf (PLACEMENT_DAMAGE_TYPE settings)) ->
  is_Some (slotOf (PLACEMENT_DAMAGE_CONTEXT settings)) ->
  exists L, placeLabels settings damageType versatile context = Normal L.
Proof.
  destruct settings as [icons tp typ cp rt rd]. open_placeLabels.
  intros [kt Ht] [ky Hy] [kc Hc]. rewrite Ht, Hy, Hc.
  repeat case_match; simplify_eq; eauto.
Qed.

(** With the three fragments placed by number in three different slots,
    each slot holds its own fragment and nothing else, unmerged, whatever
    the two replace settings say: the title prefix, the context when
    there is one, and the damage type when it has a label. *)
Theorem distinct_slots_hold_their_own_fragment settings damageType versatile
    context kt ky kc :
  PLACEMENT_DAMAGE_TITLE settings = JNum (slotNumber kt) ->
  PLACEMENT_DAMAGE_TYPE settings = JNum (slotNumber ky) ->
  PLACEMENT_DAMAGE_CONTEXT settings = JNum (slotNumber kc) ->
  kt <> ky -> kt <> kc -> ky <> kc ->
  exists L,
    placeLabels settings damageType versatile context = Normal L
    /\ getLabel kt L = [damagePrefix damageType versatile]
    /\ getLabel kc L = (if truthy_str context then [default "" context] else [])
    /\ getLabel ky L
       = (if 0 <? Z.of_nat (String.length (damageString damageType))
          then [damageString damageType] else []).
Proof.
  destruct settings as [icons tp typ cp rt rd]. open_placeLabels. unfold loose_eq.
  intros -> -> -> Hty Htc Hyc.
  destruct kt, ky, kc; try done;
    cbn [slotNumber slotOf Z.eqb Pos.eqb strict_eq bool_decide decide_rel];
    rewrite ?andb_false_r; cbn [negb andb];
    destruct (truthy_str context), (0 <? Z.of_nat (String.length (damageString damageType)));
    eexists; (split; [reflexivity |]); done.
Qed.

(** With the title replaced by the context (replace setting on, title
    and context placed in the same slot, a context present) the title
    prefix is no fragment at all: that slot starts with the context, and
    every fragment is the context or the damage type. *)
Theorem context_replaces_title settings damageType versatile ctx k :
  PLACEMENT_DAMAGE_CONTEXT settings = PLACEMENT_DAMAGE_TITLE settings ->
  slotOf (PLACEMENT_DAMAGE_TITLE settings) = Some k ->
  CONTEXT_REPLACE_TITLE settings = true ->
  ctx <> "" ->
  (forall L, placeLabels settings damageType versatile (Some ctx) = Normal L ->
     head (getLabel k L) = Some ctx
     /\ fragments L ⊆+ [ctx; damageString damageType])
  /\ (is_Some (slotOf (PLACEMENT_DAMAGE_TYPE settings)) ->
      exists L, placeLabels settings damageType versatile (Some ctx) = Normal L).
Proof.
  destruct settings as [icons tp typ cp rt rd]. open_placeLabels.
  intros -> Hk -> Hctx.
  rewrite (truthy_str_Some ctx Hctx), loose_eq_refl, strict_eq_refl, Hk.
  cbn [negb andb]. rewrite andb_false_r. cbn [andThen andb].
  assert (strict_eq tp (JStr "0") = false) as ->.
  { apply not_true_iff_false. rewrite strict_eq_true.
    by destruct (slotOf_not_zero _ _ Hk). }
  cbn [negb]. split.
  - intros L. destruct k, (slotOf typ) as [[] |]; label_cbn;
      repeat case_match; intros; simplify_eq; label_cbn;
      (split; [done | solve_submseteq]).
  - intros [ky ->]. repeat case_match; eauto.
Qed.

(** With the damage type replaced by the context (replace setting on, a
    context present, type and context placements equal under [==]) the
    damage type is no fragment at all. *)
Theorem context_replaces_damage_type settings damageType versatile context L :
  CONTEXT_REPLACE_DAMAGE settings = true ->
  truthy_str context = true ->
  loose_eq (PLACEMENT_DAMAGE_TYPE settings) (PLACEMENT_DAMAGE_CONTEXT settings) = true ->
  placeLabels settings damageType versatile context = Normal L ->
  exists a,
    (a = damagePrefix damageType versatile
     \/ a = mergedFragment (damagePrefix damageType versatile) (default "" context))
    /\ fragments L ⊆+ [a; default "" context].
Proof.
  destruct settings as [icons tp typ cp rt rd]. open_placeLabels.
  intros -> Hctx Hloose. rewrite Hctx, Hloose. rewrite !andb_false_r.
  set (prefix := damagePrefix damageType versatile) in *.
  set (ctx := default "" context) in *.
  destruct (strict_eq cp tp) eqn:Ecp; [apply strict_eq_true in Ecp; subst cp |].
  - destruct (slotOf tp) as [[] |]; label_cbn.
    all: repeat case_match; intros; simplify_eq; label_cbn.
    all: first [ exists prefix; split; [by left | solve_submseteq]
               | eexists; split;
                 [right; unfold mergedFragment; cbn [truthy_str];
                  match goal with H : negb _ = _ |- _ => rewrite H end; reflexivity
                 | solve_submseteq] ].
  - destruct (slotOf tp) as [[] |], (slotOf cp) as [[] |]; label_cbn.
    all: repeat case_match; intros; simplify_eq; label_cbn.
    all: exists prefix; split; [by left | solve_submseteq].
Qed.


End PlacementExtras.

Section DamageFailures.
Context {lib : DiceLibrary} {util : RollUtility} {env : Environment}.

(** [renderDamageRoll] fails in two situations and no other, and never
    when both rolls are present without terms: the label placement
    throws, or neither roll is given. *)
Theorem renderDamageRoll_failures settings renderData σ :
  (exists err, renderDamageRoll settings renderData σ = Throw err)
  <-> ~ (exists b c, baseRoll renderData = Some b /\ critRoll renderData = Some c
                     /\ terms b = [] /\ terms c = [])
      /\ ((exists err, placeLabels settings (damageType renderData)
                         (versatile renderData) (context renderData) = Throw err)
          \/ (baseRoll renderData = None /\ critRoll renderData = None)).
Proof.
  assert (Hguard :
    bool_decide ((length ∘ terms) <$> baseRoll renderData = Some 0%nat)
    && bool_decide ((length ∘ terms) <$> critRoll renderData = Some 0%nat) = true
    <-> exists b c, baseRoll renderData = Some b /\ critRoll renderData = Some c
                    /\ terms b = [] /\ terms c = []).
  { rewrite andb_true_iff, !no_terms_guard. split.
    - intros [(b & Eb & Hb) (c & Ec & Hc)]. by exists b, c.
    - intros (b & c & Eb & Ec & Hb & Hc). split; eauto. }
  unfold renderDamageRoll. destruct (_ && _ : bool) eqn:Eg.
  - split; [by intros [err ?] |]. intros [Hne _]. destruct Hne. by apply Hguard.
  - assert (Hne : ~ (exists b c, baseRoll renderData = Some b
                       /\ critRoll renderData = Some c
                       /\ terms b = [] /\ terms c = [])).
    { intros He%Hguard. congruence. }
    destruct (placeLabels _ _ _ _) as [L | err] eqn:HL; cbn [andThen].
    + destruct (baseRoll renderData) as [b |], (critRoll renderData) as [c |];
        cbn [andThen].
      1-3: split; [by intros [err ?] | intros [_ [[err ?] | [? ?]]]; done].
      split; [| eauto]. intros _. split; [done |]. by right.
    + split; [| eauto]. intros _. split; [done |]. left. eauto.
Qed.

End DamageFailures.

(** ** The further properties on concrete inputs *)

Lemma advantage_one_entry_per_die :
  exists σ' props,
    renderMultiRoll Sample.iconSettings Sample.advantage Sample.advantageStore
      = Some (σ', Normal props)
    /\ map contributing (entries props) = [[0]; [1]]%nat.
Proof.
  destruct (no_lucky_one_entry_per_result Sample.iconSettings Sample.advantage
              Sample.advantageStore _ _ eq_refl eq_refl eq_refl)
    as (σ' & props & Hr & Hm & _).
  exists σ', props. split; [exact Hr | exact Hm].
Defined.

Lemma chain_entry_count :
  exists σ' props,
    renderMultiRoll Sample.iconSettings Sample.luckyThree Sample.chainStore
      = Some (σ', Normal props)
    /\ (length (entries props) <= 3 <= 2 * length (entries props))%nat.
Proof.
  eexists _, _. split; [reflexivity |].
  pose proof (entry_count_bounds Sample.iconSettings Sample.luckyThree
                Sample.chainStore _ _ _ _ eq_refl eq_refl eq_refl) as Hb.
  exact Hb.
Defined.

Lemma rerolled_one_counts_the_companion :
  exists σ' e,
    renderMultiRoll Sample.iconSettings Sample.luckyPair Sample.rerolledOneStore
      = Some (σ', Normal (mkMultiRollProps "id" (Some "title") "formula" [e]
                            ["tooltip"] (Some "tooltip")))
    /\ e_total e = 15.
Proof.
  eexists _, _. split; [reflexivity |].
  pose proof (proj2 (entry_total_counts_non_rerolled Sample.iconSettings
                       Sample.luckyPair Sample.rerolledOneStore _ _ _
                       eq_refl eq_refl) _ 0%nat 1%nat
                ltac:(by left) eq_refl eq_refl eq_refl) as Ht.
  exact Ht.
Defined.

Lemma advantage_dropped_die_is_ignored :
  exists σ' props e,
    renderMultiRoll Sample.iconSettings Sample.advantage Sample.advantageStore
      = Some (σ', Normal props)
    /\ head (entries props) = Some e
    /\ ignored e = Some true.
Proof.
  eexists _, _, _. split; [reflexivity |]. split; [reflexivity |].
  apply (proj1 (ignored_iff_some_discarded Sample.iconSettings Sample.advantage
                  Sample.advantageStore _ _ eq_refl _ ltac:(by left))).
  exists 0%nat. split; [by left | reflexivity].
Defined.

Lemma advantage_rendered_twice :
  exists σ' props σ'' props',
    renderMultiRoll Sample.iconSettings Sample.advantage Sample.advantageStore
      = Some (σ', Normal props)
    /\ renderMultiRoll Sample.iconSettings Sample.advantage σ'
       = Some (σ'', Normal props')
    /\ forall l, σ'' l = σ' l.
Proof.
  eexists _, _. 
  destruct (second_render_keeps_the_store Sample.iconSettings Sample.advantage
              Sample.advantageStore _ _ eq_refl) as (σ'' & props' & Hr & Hs).
  exists σ'', props'. split; [reflexivity |]. split; [exact Hr | exact Hs].
Defined.



Lemma merged_labels_structure :
  exists L,
    placeLabels (Sample.numericSettings true 1 1 1 false false) "fire" false
      (Some "Sneak Attack") = Normal L
    /\ fragments L = ["Damage (Sneak Attack)"; "Fire"]
    /\ exists a, fragments L ⊆+ [a; "Sneak Attack"; "Fire"].
Proof.
  eexists. split; [reflexivity |]. split; [reflexivity |].
  destruct (placement_structure (env := Sample.environment)
              (Sample.numericSettings true 1 1 1 false false) "fire" false
              (Some "Sneak Attack") _ eq_refl) as (a & _ & Hsub & _).
  exists a. exact Hsub.
Defined.

Lemma text_slots_are_valid :
  exists L,
    placeLabels (mkSettings true (JStr "1") (JStr "2") (JStr "3") false false)
      "fire" false (Some "Sneak Attack") = Normal L.
Proof.
  apply (placement_returns_on_valid_slots (env := Sample.environment)
           (mkSettings true (JStr "1") (JStr "2") (JStr "3") false false));
    eexists; reflexivity.
Defined.

Lemma three_slots_three_fragments :
  exists L,
    placeLabels (Sample.numericSettings true 1 2 3 true true) "fire" true
      (Some "Sneak Attack") = Normal L
    /\ L = mkLabels ["Damage [Versatile]"] ["Fire"] ["Sneak Attack"].
Proof.
  destruct (distinct_slots_hold_their_own_fragment (env := Sample.environment)
              (Sample.numericSettings true 1 2 3 true true) "fire" true
              (Some "Sneak Attack") Slot1 Slot2 Slot3 eq_refl eq_refl eq_refl
              ltac:(discriminate) ltac:(discriminate) ltac:(discriminate))
    as (L & HL & _).
  exists L. split; [exact HL |]. by injection HL.
Defined.

Lemma replaced_title_sample :
  exists L,
    placeLabels (Sample.numericSettings true 1 2 1 true false) "fire" false
      (Some "Sneak Attack") = Normal L
    /\ head (getLabel Slot1 L) = Some "Sneak Attack"
    /\ fragments L ⊆+ ["Sneak Attack"; "Fire"].
Proof.
  eexists. split; [reflexivity |].
  apply (proj1 (context_replaces_title (env := Sample.environment)
                  (Sample.numericSettings true 1 2 1 true false) "fire" false
                  "Sneak Attack" Slot1 eq_refl eq_refl eq_refl
                  ltac:(discriminate))).
  reflexivity.
Defined.

Lemma replaced_type_sample :
  exists L a,
    placeLabels (Sample.numericSettings true 1 2 2 false true) "fire" false
      (Some "Sneak Attack") = Normal L
    /\ L = mkLabels ["Damage"] ["Sneak Attack"] []
    /\ fragments L ⊆+ [a; "Sneak Attack"].
Proof.
  eexists. 
  destruct (context_replaces_damage_type (env := Sample.environment)
              (Sample.numericSettings true 1 2 2 false true) "fire" false
              (Some "Sneak Attack") _ eq_refl eq_refl eq_refl eq_refl)
    as (a & _ & Hsub).
  exists a. split; [reflexivity |]. split; [reflexivity | exact Hsub].
Defined.
